(** * Reservoir sampler and batch enricher: a shallow embedding

    This development models the two scripts of the repository,
    [scripts/bluesky_scraper.py] (the reservoir sampler over the Jetstream
    feed) and [scripts/hydrate_data.py] (the batched enrichment of the
    sample), and proves properties of them.

    Python values that come from JSON are kept dynamically typed ([json]),
    with the exceptions Python raises on them made explicit.  The effects of
    the scripts (random draws, HTTP requests, sleeping, exceptions) are the
    operations of a small free monad [prog]; the sampler is interpreted into
    exact probabilities over its uniform draws, the enricher is run against
    a scripted endpoint. *)

From Stdlib Require Import ZArith QArith Qcanon String List.
From stdpp Require Import base numbers gmap sets list strings pretty.

Set Warnings "-clear-no-such-hyp".

Local Open Scope string_scope.
Local Open Scope list_scope.
Local Open Scope Z_scope.

(** ** Python values *)

(** What [json.loads] and [resp.json()] return.  Objects are association
    lists read from the front, one entry per key. *)
#[warnings="-register-all"]
Inductive json : Type :=
| JNull
| JBool (b : bool)
| JNum (q : Qc)
| JStr (s : string)
| JArr (l : list json)
| JObj (kvs : list (string * json)).

(** The exceptions the two scripts can raise. *)
Inductive exn : Type :=
| AttributeError
| TypeError
| IndexError
| ValueError
| AssertionError
| ZeroDivisionError
| OverflowError.

#[global] Instance exn_eq_dec : EqDecision exn.
Proof. solve_decision. Defined.

(** Equality of JSON values, as a program. *)
Fixpoint json_eqb (x y : json) : bool :=
  match x, y with
  | JNull, JNull => true
  | JBool b, JBool b' => bool_decide (b = b')
  | JNum q, JNum q' => bool_decide (q = q')
  | JStr s, JStr s' => String.eqb s s'
  | JArr l, JArr l' =>
      (fix go (l l' : list json) : bool :=
         match l, l' with
         | [], [] => true
         | a :: l, a' :: l' => json_eqb a a' && go l l'
         | _, _ => false
         end) l l'
  | JObj kvs, JObj kvs' =>
      (fix go (l l' : list (string * json)) : bool :=
         match l, l' with
         | [], [] => true
         | (k, a) :: l, (k', a') :: l' =>
             String.eqb k k' && json_eqb a a' && go l l'
         | _, _ => false
         end) kvs kvs'
  | _, _ => false
  end.

(** A computation that either raises or returns. *)
Definition result (A : Type) : Type := exn + A.

(** [d.get(key)]: the value under [key], [None] when the key is absent;
    only a dict has a [get] method. *)
Fixpoint assoc (key : string) (kvs : list (string * json)) : option json :=
  match kvs with
  | [] => None
  | (k, v) :: kvs' => if String.eqb k key then Some v else assoc key kvs'
  end.

Definition py_get_default (j : json) (key : string) (dflt : json) : result json :=
  match j with
  | JObj kvs => inr (default dflt (assoc key kvs))
  | _ => inl AttributeError
  end.

Definition py_get (j : json) (key : string) : result json :=
  py_get_default j key JNull.

(** Truth value of a Python object, as [not x], [if x:] and [assert x] use it. *)
Definition truthy (j : json) : bool :=
  match j with
  | JNull => false
  | JBool b => b
  | JNum q => negb (bool_decide (q = 0%Qc))
  | JStr s => negb (String.eqb s "")
  | JArr l => match l with [] => false | _ => true end
  | JObj kvs => match kvs with [] => false | _ => true end
  end.

(** [j == s] for a string literal [s]. *)
Definition eq_str (j : json) (s : string) : bool :=
  match j with
  | JStr s' => String.eqb s' s
  | _ => false
  end.

Definition is_none (j : json) : bool :=
  match j with
  | JNull => true
  | _ => false
  end.

(** [s in j] for a string [s]: element of a list, substring of a string,
    key of a dict; other values are not containers. *)
Definition py_str_in (s : string) (j : json) : result bool :=
  match j with
  | JArr l => inr (existsb (λ x, eq_str x s) l)
  | JStr t => inr (bool_decide (is_Some (String.index 0 s t)))
  | JObj kvs => inr (bool_decide (is_Some (assoc s kvs)))
  | _ => inl TypeError
  end.

(** [s + j] for a string [s]: only a string can be concatenated to it. *)
Definition py_str_add (s : string) (j : json) : result string :=
  match j with
  | JStr t => inr (s ++ t)%string
  | _ => inl TypeError
  end.

(** [for x in j]: the sequence a [for] loop walks through. *)
Fixpoint chars (s : string) : list json :=
  match s with
  | EmptyString => []
  | String c s' => JStr (String c EmptyString) :: chars s'
  end.

Definition py_iter (j : json) : result (list json) :=
  match j with
  | JArr l => inr l
  | JStr s => inr (chars s)
  | JObj kvs => inr (map (λ kv, JStr kv.1) kvs)
  | _ => inl TypeError
  end.

(** The conversion of an int to a float, in [float(x)] and in the
    arithmetic of an int with a float, rounds to the nearest double, ties to
    even, and raises [OverflowError] when that is not finite: from
    [2^1024 - 2^970] on, halfway between the largest double,
    [2^1024 - 2^971], and [2^1024]. *)
Definition float_overflows (x : Z) : bool := 2 ^ 1024 - 2 ^ 970 <=? Z.abs x.

(** [print_progress(iteration, total, ...)] prints a bar and returns nothing.
    Its first line computes [iteration / float(total)]: [total] is converted
    first, then [iteration], and then the division refuses a zero divisor.
    The rest is integer arithmetic and the bar, of [length] characters at
    most in every call of the two scripts. *)
Definition print_progress (iteration total : Z) : result unit :=
  if float_overflows total then inl OverflowError
  else if float_overflows iteration then inl OverflowError
  else if total =? 0 then inl ZeroDivisionError
  else inr tt.

(** ** Programs with effects *)

(** A program over the operations [E] returns, raises, or performs an
    operation and goes on with its answer. *)
Inductive prog (E : Type → Type) (A : Type) : Type :=
| Ret (a : A)
| Raise (e : exn)
| Vis {X : Type} (op : E X) (k : X → prog E A).

Arguments Ret {E A} a.
Arguments Raise {E A} e.
Arguments Vis {E A X} op k.

Fixpoint bind {E A B} (m : prog E A) (f : A → prog E B) : prog E B :=
  match m with
  | Ret a => f a
  | Raise e => Raise e
  | Vis op k => Vis op (λ x, bind (k x) f)
  end.

#[global] Instance prog_ret {E} : MRet (prog E) := λ A, Ret.
#[global] Instance prog_bind {E} : MBind (prog E) := λ A B f m, bind m f.

Definition lift {E A} (r : result A) : prog E A :=
  match r with
  | inl e => Raise e
  | inr a => Ret a
  end.

Definition trigger {E X} (op : E X) : prog E X := Vis op Ret.

#[global] Instance result_ret : MRet result := λ A, inr.
#[global] Instance result_bind : MBind result :=
  λ A B f m, match m with inl e => inl e | inr a => f a end.

(** ** The sampler: [reservoir_sample] of [bluesky_scraper.py] *)

(** The one operation of the sampler: [random.randint(lo, hi)], an integer
    of [[lo, hi]], both ends included. *)
Inductive randE : Type → Type :=
| RandintE (lo hi : Z) : randE Z.

(** [random.randint] refuses an empty range. *)
Definition randint (lo hi : Z) : prog randE Z :=
  if hi <? lo then Raise ValueError else trigger (RandintE lo hi).

(** The dict [item] of the loop body. *)
Record item : Type := Item {
  uri : string;
  did : string;
  rkey : string;
  record : json;
}.

(** The local state of [reservoir_sample]. *)
Record state : Type := State {
  sample : list item;
  seen_uris : gset string;
  n : Z;
}.

Definition init : state := {| sample := []; seen_uris := ∅; n := 0 |}.

(** [len(l)] *)
Definition len {A} (l : list A) : Z := Z.of_nat (List.length l).

(** [l[i] = x]: a negative index counts from the end, an index out of
    range raises. *)
Definition py_setitem {A} (l : list A) (i : Z) (x : A) : result (list A) :=
  if bool_decide (0 ≤ i < len l) then inr (<[Z.to_nat i := x]> l)
  else if bool_decide (- len l ≤ i < 0) then inr (<[Z.to_nat (len l + i) := x]> l)
  else inl IndexError.

(** The operand of [+] on the right of a string has to be a string. *)
Definition as_str (j : json) : result string :=
  match j with
  | JStr s => inr s
  | _ => inl TypeError
  end.

(** Lines 70 to 90: the checks on a decoded message and the composition of
    its uri.  [None] stands for [continue]; the fields returned are the
    local variables the item is later built from. *)
Definition candidate (evt : json) : result (option item) :=
  commit ← py_get_default evt "commit" (JObj []);
  record ← py_get commit "record";
  if negb (truthy commit) then mret None else
  operation ← py_get commit "operation";
  if negb (eq_str operation "create") then mret None else
  text ← py_get record "text";
  if is_none text || eq_str text "" then mret None else
  langs ← py_get record "langs";
  if is_none langs then mret None else
  has_en ← py_str_in "en" langs;
  if negb has_en then mret None else
  did ← py_get evt "did";
  collection ← py_get commit "collection";
  rkey ← py_get commit "rkey";
  did ← as_str did;
  collection ← as_str collection;
  rkey ← as_str rkey;
  let uri := ("at://" ++ did ++ "/" ++ collection ++ "/" ++ rkey)%string in
  mret (Some {| uri := uri; did := did; rkey := rkey; record := record |}).

(** Lines 91 to 108: deduplication, the count, and the reservoir. *)
Definition offer (k : Z) (st : state) (it : item) : prog randE state :=
  if bool_decide (uri it ∈ seen_uris st) then mret st else
  let seen := {[uri it]} ∪ seen_uris st in
  let n := n st + 1 in
  if len (sample st) <? k then
    mret {| sample := sample st ++ [it]; seen_uris := seen; n := n |}
  else
    pick_random ← randint 0 (n - 1);
    if pick_random <? k then
      sample' ← lift (py_setitem (sample st) pick_random it);
      mret {| sample := sample'; seen_uris := seen; n := n |}
    else
      mret {| sample := sample st; seen_uris := seen; n := n |}.

(** One turn of the [while] loop on a message that was received. *)
Definition body (k : Z) (st : state) (evt : json) : prog randE state :=
  c ← lift (candidate evt);
  match c with
  | None => mret st
  | Some it => offer k st it
  end.

(** The [while] loop over the messages received before the deadline;
    a receive that times out changes nothing. *)
Fixpoint loop (k : Z) (st : state) (evts : list json) : prog randE state :=
  match evts with
  | [] => mret st
  | evt :: evts' => st' ← body k st evt; loop k st' evts'
  end.

(** [reservoir_sample(source, duration_s, k)], on the messages [evts] the
    connection delivers within [duration_s] seconds: none when the deadline
    has passed at once. *)
Definition reservoir_sample (duration_s k : Z) (evts : list json)
  : prog randE (list item) :=
  _ ← lift (print_progress 0 duration_s);
  st ← loop k init (if 0 <? duration_s then evts else []);
  _ ← lift (print_progress duration_s duration_s);
  mret (sample st).

(** *** Runs and probabilities *)

(** The values [random.randint(lo, hi)] draws from, each as likely. *)
Definition randint_values (lo hi : Z) : list Z := seqZ lo (hi - lo + 1).

(** Every run of a program: one outcome per sequence of draws. *)
Fixpoint outcomes {A} (p : prog randE A) : list (result A) :=
  match p with
  | Ret a => [inr a]
  | Raise e => [inl e]
  | Vis op k =>
      match op in randE X return (X → list (result A)) → list (result A) with
      | RandintE lo hi => λ g, r ← randint_values lo hi; g r
      end (λ x, outcomes (k x))
  end.

Definition sumQc (l : list Qc) : Qc := foldr Qcplus 0%Qc l.

(** Expected value of [f] on the result of a program, the draws being
    independent and uniform; a run that raises counts for nothing. *)
Fixpoint expect {A} (p : prog randE A) (f : A → Qc) : Qc :=
  match p with
  | Ret a => f a
  | Raise _ => 0%Qc
  | Vis op k =>
      match op in randE X return (X → Qc) → Qc with
      | RandintE lo hi =>
          λ g, (sumQc (g <$> randint_values lo hi) / Qc_of_Z (hi - lo + 1))%Qc
      end (λ x, expect (k x) f)
  end.

(** Probability that the program returns a result in [ev]. *)
Definition prob {A} (p : prog randE A) (ev : A → Prop)
    `{∀ a, Decision (ev a)} : Qc :=
  expect p (λ a, if decide (ev a) then 1%Qc else 0%Qc).

(** [p] can return [a]. *)
Definition yields {A} (p : prog randE A) (a : A) : Prop := inr a ∈ outcomes p.

(** No run of [p] raises. *)
Definition never_raises {A} (p : prog randE A) : Prop :=
  ∀ e, inl e ∉ outcomes p.

(** ** The enricher: [get_batch] and [hydrate] of [hydrate_data.py] *)

(** The [Retry-After] header of a response, as [get_batch] reads it.  Of
    [float(retry_after)] only [min(., 30.0)] is taken and given to
    [time.sleep]: an infinite value behaves as any number beyond 30 or
    below 0, and a NaN, which [min] keeps and [time.sleep] refuses, as a
    negative number. *)
Inductive retry_after_header : Type :=
| NoRetryAfter                  (* absent, or the empty string *)
| RetryAfterSeconds (secs : Qc) (* [float(retry_after)] is [secs] *)
| RetryAfterOther.              (* [float(retry_after)] raises [ValueError] *)

(** What [session.get] does: a response, with its decoded body, or an
    exception of [requests.RequestException]. *)
Inductive response : Type :=
| Response (status_code : Z) (retry_after : retry_after_header) (body : json)
| RequestException.

(** The operations of the enricher: [session.get(URL, params, timeout)]
    and [time.sleep(secs)].  Durations are rational numbers of seconds. *)
Inductive httpE : Type → Type :=
| GetE (uris : list json) (timeout_s : Z) : httpE response
| SleepE (secs : Qc) : httpE unit.

(** [time.sleep] refuses a negative duration. *)
Definition sleep (secs : Qc) : prog httpE unit :=
  if decide (secs < 0)%Qc then Raise ValueError else trigger (SleepE secs).

(** [min(x, y)] *)
Definition py_min (x y : Qc) : Qc := if decide (y < x)%Qc then y else x.

Definition retryable (status_code : Z) : bool :=
  bool_decide (status_code ∈ [429; 500; 502; 503; 504]).

(** [base_backoff * (2 ** attempt)], for the float that [base_backoff] is
    documented to be and is by default: the int [2 ** attempt] is converted
    to a float, which fails from [2 ** 1024] on.  The product of the two
    floats is exact while it is finite, and beyond that it is an infinity,
    of which [min(., 30.0)] makes what it makes of the exact product. *)
Definition backoff_delay {E} (base_backoff : Qc) (attempt : nat) : prog E Qc :=
  if float_overflows (2 ^ Z.of_nat attempt) then Raise OverflowError
  else mret (base_backoff * 2 ^ attempt)%Qc.

(** The body of the [for attempt in range(retries + 1)] loop of [get_batch],
    over the attempts still to make. *)
Fixpoint attempts (uris : list json) (retries timeout_s : Z) (base_backoff : Qc)
    (todo : list nat) : prog httpE json :=
  match todo with
  | [] => mret (JArr [])
  | attempt :: todo' =>
      resp ← trigger (GetE uris timeout_s);
      match resp with
      | Response status_code retry_after body =>
          if status_code =? 200 then lift (py_get body "posts")
          else if retryable status_code then
            sleep_s ← match retry_after with
                      | NoRetryAfter => backoff_delay base_backoff attempt
                      | RetryAfterSeconds secs => mret secs
                      | RetryAfterOther => Raise ValueError
                      end;
            if Z.of_nat attempt <? retries then
              _ ← sleep (py_min sleep_s (Qc_of_Z 30));
              attempts uris retries timeout_s base_backoff todo'
            else mret (JArr [])
          else mret (JArr [])
      | RequestException =>
          if Z.of_nat attempt <? retries then
            sleep_s ← backoff_delay base_backoff attempt;
            _ ← sleep (py_min sleep_s (Qc_of_Z 30));
            attempts uris retries timeout_s base_backoff todo'
          else mret (JArr [])
      end
  end.

(** [get_batch(session, uris, retries, timeout_s, base_backoff)] *)
Definition get_batch (uris : list json) (retries timeout_s : Z)
    (base_backoff : Qc) : prog httpE json :=
  attempts uris retries timeout_s base_backoff (seq 0 (Z.to_nat (retries + 1))).

(** The default values of the optional parameters; [0.8] is four fifths. *)
Definition default_retries : Z := 4.
Definition default_timeout_s : Z := 30.
Definition default_base_backoff : Qc := Q2Qc (4 # 5).

Definition BATCH_SIZE : Z := 25.

(** The dict [item] built from a post in [hydrate]. *)
Definition trimmed (post : json) : result json :=
  uri ← py_get post "uri";
  author ← py_get post "author";
  record ← py_get post "record";
  like_count ← py_get post "likeCount";
  reply_count ← py_get post "replyCount";
  repost_count ← py_get post "repostCount";
  bookmark_count ← py_get post "bookmarkCount";
  quote_count ← py_get post "quoteCount";
  mret (JObj [("uri", uri); ("author", author); ("record", record);
              ("like_count", like_count); ("reply_count", reply_count);
              ("repost_count", repost_count);
              ("bookmark_count", bookmark_count);
              ("quote_count", quote_count)]).

(** The loop [for post in r] of [hydrate]: [item] is built and left
    unused, [post] is appended. *)
Fixpoint for_posts (posts corpus : list json) (hydrated : Z)
  : result (list json * Z) :=
  match posts with
  | [] => mret (corpus, hydrated)
  | post :: posts' =>
      item ← trimmed post;
      for_posts posts' (corpus ++ [post]) (hydrated + 1)
  end.

Section hydrate.
(** [hydrate] calls the function [get_batch] of the module with a batch
    and the default parameters; the section takes it as a variable. *)
Context {E : Type → Type} (get_batch : list json → prog E json).

(** [r = get_batch(session, batch); assert(r); for post in r: ...] *)
Definition fetch (batch corpus : list json) (hydrated : Z)
  : prog E (list json * Z) :=
  r ← get_batch batch;
  if negb (truthy r) then Raise AssertionError else
  posts ← lift (py_iter r);
  lift (for_posts posts corpus hydrated).

(** The [while i < len(data)] loop, on [rest = data[i:]].  A turn with a
    full batch fetches it and empties it; the turn after it then appends,
    as [0 < BATCH_SIZE].  Both turns are one step here. *)
Fixpoint while_loop (len_data : Z) (rest batch corpus : list json)
    (hydrated : Z) : prog E (list json * list json * Z) :=
  match rest with
  | [] => mret (batch, corpus, hydrated)
  | d :: rest' =>
      '(batch, corpus, hydrated) ←
        (if len batch <? BATCH_SIZE then mret (batch, corpus, hydrated)
         else
           '(corpus, hydrated) ← fetch batch corpus hydrated;
           _ ← lift (print_progress (len_data - len rest) (len_data - 1));
           mret ([], corpus, hydrated));
      u ← lift (py_get d "uri");
      while_loop len_data rest' (batch ++ [u]) corpus hydrated
  end.

(** [hydrate()], on the list [data] read from the sample document. *)
Definition hydrate_with (data : list json) : prog E (list json * Z) :=
  _ ← lift (print_progress 0 (len data - 1));
  '(batch, corpus, hydrated) ← while_loop (len data) data [] [] 0;
  match batch with
  | [] => mret (corpus, hydrated)
  | _ =>
      '(corpus, hydrated) ← fetch batch corpus hydrated;
      _ ← lift (print_progress (len data) (len data));
      mret (corpus, hydrated)
  end.
End hydrate.

(** [get_batch] with the default parameters, as [hydrate] calls it. *)
Definition get_batch_default (uris : list json) : prog httpE json :=
  get_batch uris default_retries default_timeout_s default_base_backoff.

(** [hydrate] as the module runs it. *)
Definition hydrate (data : list json) : prog httpE (list json * Z) :=
  hydrate_with get_batch_default data.

(** The document [new_json] that [__main__] writes. *)
Definition hydrated_document (out : list json * Z) : json :=
  JObj [("total", JNum (Qc_of_Z out.2)); ("data", JArr out.1)].

(** *** Running the enricher *)

(** What the outside has seen: the requests sent, each with its uris, and
    the durations slept, in order. *)
Record world : Type := World {
  requests : list (list json);
  sleeps : list Qc;
}.

Definition fresh : world := {| requests := []; sleeps := [] |}.

(** An endpoint answers the request number [i] (from 0) for [uris]. *)
Definition endpoint : Type := nat → list json → response.

Fixpoint run_http {A} (srv : endpoint) (p : prog httpE A) (w : world)
  : result A * world :=
  match p with
  | Ret a => (inr a, w)
  | Raise e => (inl e, w)
  | Vis op k =>
      match op in httpE X return (X → world → result A * world) → _ with
      | GetE uris _ => λ g,
          g (srv (List.length (requests w)) uris)
            {| requests := requests w ++ [uris]; sleeps := sleeps w |}
      | SleepE secs => λ g,
          g tt {| requests := requests w; sleeps := sleeps w ++ [secs] |}
      end (λ x w', run_http srv (k x) w')
  end.

(** [hydrate] over a fetcher left abstract: a call of [get_batch] is an
    operation, answered from outside by a value or an exception. *)
Inductive callE : Type → Type :=
| GetBatchE (batch : list json) : callE (result json).

Definition call_get_batch (batch : list json) : prog callE json :=
  r ← trigger (GetBatchE batch); lift r.

(** [hydrate] with its calls of [get_batch] left to a fetcher. *)
Definition hydrate_calls (data : list json) : prog callE (list json * Z) :=
  hydrate_with call_get_batch data.

(** A fetcher answers a batch, from a state of its own that it updates. *)
Definition fetcher (S : Type) : Type := S → list json → result json * S.

(** A call of [get_batch]: the batch asked for and the answer. *)
Definition call : Type := list json * result json.

(** Runs a program against a fetcher; the log lists the calls, in order. *)
Fixpoint run_calls {S A} (f : fetcher S) (p : prog callE A) (s : S)
    (log : list call) : result A * S * list call :=
  match p with
  | Ret a => (inr a, s, log)
  | Raise e => (inl e, s, log)
  | Vis op k =>
      match op in callE X
            return (X → S → list call → result A * S * list call) → _ with
      | GetBatchE batch => λ g,
          let '(r, s') := f s batch in g r s' (log ++ [(batch, r)])
      end (λ x s' log', run_calls f (k x) s' log')
  end.

(** The fetcher that [get_batch] is, against an endpoint: its state is
    what the outside has seen. *)
Definition http_fetcher (srv : endpoint) : fetcher world :=
  λ w batch, run_http srv (get_batch_default batch) w.

(** The batches [hydrate] asks [get_batch] for, against an endpoint. *)
Definition batches (srv : endpoint) (data : list json) : list (list json) :=
  fst <$> (run_calls (http_fetcher srv) (hydrate_calls data) fresh []).2.

(** ** Notions the statements use *)

(** The item of a message that passes the checks of the loop body. *)
Definition accepted_item (evt : json) : option item :=
  match candidate evt with
  | inr (Some it) => Some it
  | _ => None
  end.

(** The items accepted from a list of messages, duplicates included. *)
Definition accepted (evts : list json) : list item := omap accepted_item evts.

(** How many accepted, deduplicated items a list of messages holds. *)
Definition distinct_accepted (evts : list json) : Z :=
  len (remove_dups (uri <$> accepted evts)).

(** The message is one the loop body neither rejects nor fails on. *)
Definition qualifies (evt : json) (it : item) : Prop :=
  candidate evt = inr (Some it).

(** The checks on the message return: they reject or accept it. *)
Definition well_formed (evt : json) : Prop := ∃ c, candidate evt = inr c.

(** A message of the feed for a created post in English. *)
Definition create_event (did collection rkey text : string) : json :=
  JObj [("did", JStr did);
        ("commit",
         JObj [("operation", JStr "create");
               ("collection", JStr collection);
               ("rkey", JStr rkey);
               ("record", JObj [("text", JStr text);
                                ("langs", JArr [JStr "en"])])])].

(** A commit that creates, and carries no record. *)
Definition create_without_record : json :=
  JObj [("did", JStr "did:plc:a");
        ("commit", JObj [("operation", JStr "create");
                         ("collection", JStr "app.bsky.feed.post");
                         ("rkey", JStr "3k")])].

(** A created post in English whose message has no [did]. *)
Definition create_without_did : json :=
  JObj [("commit",
         JObj [("operation", JStr "create");
               ("collection", JStr "app.bsky.feed.post");
               ("rkey", JStr "3k");
               ("record", JObj [("text", JStr "hello");
                                ("langs", JArr [JStr "en"])])])].

(** Two posts of the feed, and the items the loop builds from them. *)
Definition post_a : json :=
  create_event "did:plc:a" "app.bsky.feed.post" "3k" "first".
Definition post_b : json :=
  create_event "did:plc:b" "app.bsky.feed.post" "3l" "second".

Definition item_a : item :=
  {| uri := "at://did:plc:a/app.bsky.feed.post/3k"; did := "did:plc:a";
     rkey := "3k";
     record := JObj [("text", JStr "first"); ("langs", JArr [JStr "en"])] |}.
Definition item_b : item :=
  {| uri := "at://did:plc:b/app.bsky.feed.post/3l"; did := "did:plc:b";
     rkey := "3l";
     record := JObj [("text", JStr "second"); ("langs", JArr [JStr "en"])] |}.

(** The state after both posts with capacity 1, the draw having kept the
    first. *)
Definition kept_a : state :=
  {| sample := [item_a]; seen_uris := {[uri item_b]} ∪ ({[uri item_a]} ∪ ∅);
     n := 2 |}.

(** A [Retry-After] header [get_batch] can follow: none, or a number of
    seconds that is not negative. *)
Definition header_ok (ra : retry_after_header) : Prop :=
  match ra with
  | NoRetryAfter => True
  | RetryAfterSeconds secs => (0 ≤ secs)%Qc
  | RetryAfterOther => False
  end.

(** The exponential backoff of an attempt, capped. *)
Definition backoff (base : Qc) (attempt : nat) : Qc :=
  py_min (base * 2 ^ attempt)%Qc (Qc_of_Z 30).

(** The wait after a retryable response: the delay the server asks for,
    if any, the backoff otherwise; capped. *)
Definition wait (base : Qc) (attempt : nat) (ra : retry_after_header) : Qc :=
  match ra with
  | RetryAfterSeconds secs => py_min secs (Qc_of_Z 30)
  | _ => backoff base attempt
  end.


(** A post as the API returns it for a uri, with more fields than the
    enricher reads. *)
Definition post_of (u : json) : json :=
  JObj [("uri", u); ("cid", JStr "bafy");
        ("author", JObj [("did", JStr "did:plc:a"); ("handle", JStr "a.test")]);
        ("record", JObj [("text", JStr "first")]);
        ("likeCount", JNum (Qc_of_Z 3)); ("replyCount", JNum (Qc_of_Z 0));
        ("repostCount", JNum (Qc_of_Z 1)); ("bookmarkCount", JNum (Qc_of_Z 0));
        ("quoteCount", JNum (Qc_of_Z 0)); ("indexedAt", JStr "2025-01-01")].

(** An endpoint that has a post for every uri. *)
Definition echo_endpoint : endpoint :=
  λ _ uris, Response 200 NoRetryAfter (JObj [("posts", JArr (post_of <$> uris))]).

(** An endpoint that is rate-limited three times, then answers. *)
Definition flaky_endpoint : endpoint :=
  λ i uris, if (i <? 3)%nat then Response 429 NoRetryAfter JNull
            else echo_endpoint i uris.



(** An endpoint that knows no post. *)
Definition not_found_endpoint : endpoint :=
  λ _ _, Response 404 NoRetryAfter JNull.

(** An item of the sample document, and a sample document of [m] items. *)
Definition sampled (i : nat) : json :=
  JObj [("uri", JStr ("at://did:plc:a/app.bsky.feed.post/" +:+ pretty i));
        ("did", JStr "did:plc:a"); ("rkey", JStr (pretty i));
        ("record", JObj [("text", JStr "first"); ("langs", JArr [JStr "en"])])].

Definition corpus_of (m : nat) : list json := sampled <$> seq 0 m.

(** An endpoint that answers the first request and knows no post after. *)
Definition forgetful_endpoint : endpoint :=
  λ i uris, if (i <? 1)%nat then echo_endpoint i uris
            else not_found_endpoint i uris.

(** A call of [get_batch] that returned something not empty. *)
Definition answered (c : call) : Prop :=
  ∃ ans, c.2 = inr ans ∧ truthy ans = true.

(** How a run of [hydrate] stands with its calls: all were answered, or
    all but the last were, and the run stopped there, on the exception of
    [get_batch] or on the assertion. *)
Definition settled {A} (r : result A) (log : list call) : Prop :=
  Forall answered log ∨
  ∃ init c, log = init ++ [c] ∧ Forall answered init ∧ ¬ answered c ∧
            r = inl (match c.2 with inl e => e | inr _ => AssertionError end).

(** The posts of the answer of a call, as the [for] loop walks them. *)
Definition posts_of (c : call) : list json :=
  match c.2 with
  | inr ans => match py_iter ans with inr posts => posts | inl _ => [] end
  | inl _ => []
  end.

(** The uris of the first two items of a sample document. *)
Definition uri_0 : json := JStr "at://did:plc:a/app.bsky.feed.post/0".
Definition uri_1 : json := JStr "at://did:plc:a/app.bsky.feed.post/1".

(** ** The rest of the two scripts *)

(** [s * n] for a string [s]: [n] copies of it, none when [n ≤ 0]. *)
Fixpoint str_copies (s : string) (m : nat) : string :=
  match m with
  | O => ""
  | S m' => (s ++ str_copies s m')%string
  end.

Definition py_str_mul (s : string) (m : Z) : string := str_copies s (Z.to_nat m).

(** [filledLength] of [print_progress]: [int(length * iteration // total)],
    the division of integers rounding down. *)
Definition filled_length (iteration total length : Z) : Z :=
  (length * iteration) `div` total.

(** [bar] of [print_progress]. *)
Definition progress_bar (iteration total length : Z) (fill : string) : string :=
  let filledLength := filled_length iteration total length in
  (py_str_mul fill filledLength ++ py_str_mul "-" (length - filledLength))%string.

(** The dict [item] of the sampler, as it is written to the sample
    document. *)
Definition item_json (it : item) : json :=
  JObj [("uri", JStr (uri it)); ("did", JStr (did it));
        ("rkey", JStr (rkey it)); ("record", record it)].

(** The document [new_json] that [__main__] of the sampler writes. *)
Definition sample_document (sample_size : Z) (corpus : list item) : json :=
  JObj [("total", JNum (Qc_of_Z sample_size));
        ("data", JArr (item_json <$> corpus))].

(** [__main__] of the sampler, up to the document it writes. *)
Definition scraper_main (duration_s sample_size : Z) (evts : list json)
  : prog randE json :=
  corpus ← reservoir_sample duration_s sample_size evts;
  mret (sample_document sample_size corpus).

(** [total - hydrated] for the [total] of a sample document as the sampler
    writes them: the int that was its sample size, or [None] when the
    document has no total.  The subtraction of two ints is exact; nothing
    can be subtracted from [None]. *)
Definition py_sub_int (total : option Z) (hydrated : Z) : result Z :=
  match total with
  | Some t => inr (t - hydrated)
  | None => inl TypeError
  end.

(** The end of [__main__] of the enricher, after the document was written:
    the count of the second message, if it is printed. *)
Definition report_missing (total : option Z) (hydrated : Z)
  : result (option Z) :=
  missing ← py_sub_int total hydrated;
  if decide (0 < missing) then mret (Some missing) else mret None.

(** [__main__] of the enricher on a sample document whose data is [data]
    and whose total is the int [total], or is missing: the document it
    writes, and how its last lines end. *)
Definition hydrate_main (total : option Z) (data : list json)
  : prog httpE (json * result (option Z)) :=
  out ← hydrate data;
  mret (hydrated_document out, report_missing total out.2).

(** The message is one the loop body keeps. *)
Definition is_accepted (evt : json) : bool :=
  match accepted_item evt with
  | Some _ => true
  | None => false
  end.

(** A reply that makes [get_batch] try again while it has retries left: a
    retryable status with a [Retry-After] it can follow, or a failure of
    the transport. *)
Definition asks_retry (rep : response) : Prop :=
  match rep with
  | Response status_code retry_after _ =>
      retryable status_code = true ∧ header_ok retry_after
  | RequestException => True
  end.

(** A batch as [hydrate] sends them: not empty, of [BATCH_SIZE] uris at
    most. *)
Definition batch_sized (batch : list json) : Prop := 0 < len batch ≤ BATCH_SIZE.

(** The value is a JSON object, a [dict] in Python. *)
Definition is_object (j : json) : Prop := ∃ kvs, j = JObj kvs.

(** * Properties *)

(** ** Equality of Python values is decidable *)

(** Structural induction on [json] that reaches below arrays and objects. *)
Section json_ind'.
Variable P : json → Prop.
Hypothesis Hnull : P JNull.
Hypothesis Hbool : ∀ b, P (JBool b).
Hypothesis Hnum : ∀ q, P (JNum q).
Hypothesis Hstr : ∀ s, P (JStr s).
Hypothesis Harr : ∀ l, Forall P l → P (JArr l).
Hypothesis Hobj : ∀ kvs, Forall (λ kv, P kv.2) kvs → P (JObj kvs).

Fixpoint json_ind' (j : json) : P j :=
  match j with
  | JNull => Hnull
  | JBool b => Hbool b
  | JNum q => Hnum q
  | JStr s => Hstr s
  | JArr l =>
      Harr l ((fix go (l : list json) : Forall P l :=
                 match l with
                 | [] => Forall_nil_2 P
                 | x :: l' => Forall_cons_2 P x l' (json_ind' x) (go l')
                 end) l)
  | JObj kvs =>
      Hobj kvs ((fix go (kvs : list (string * json))
                   : Forall (λ kv, P kv.2) kvs :=
                   match kvs with
                   | [] => Forall_nil_2 _
                   | kv :: kvs' =>
                       Forall_cons_2 (λ kv, P kv.2) kv kvs'
                                     (json_ind' kv.2) (go kvs')
                   end) kvs)
  end.
End json_ind'.

Lemma json_eqb_eq (x y : json) : json_eqb x y = true ↔ x = y.
Proof.
  revert y. induction x as [| b | q | s | l IH | kvs IH] using json_ind';
    intros [| b' | q' | s' | l' | kvs']; simpl;
    try (split; [discriminate | intros [=]]); try done.
  - rewrite bool_decide_eq_true. split; congruence.
  - rewrite bool_decide_eq_true. split; congruence.
  - rewrite String.eqb_eq. split; congruence.
  - revert l'. induction IH as [| a l Ha _ IHl]; intros [| a' l'];
      try (split; [discriminate | intros [=]]); try done.
    rewrite andb_true_iff, Ha. split.
    + intros [-> H]. apply IHl in H. congruence.
    + intros [= -> ->]. split; [done |]. by apply IHl.
  - revert kvs'. induction IH as [| [k a] l Ha _ IHl]; intros [| [k' a'] l'];
      try (split; [discriminate | intros [=]]); try done.
    simpl in Ha. rewrite !andb_true_iff, Ha, String.eqb_eq. split.
    + intros [[-> ->] H]. apply IHl in H. congruence.
    + intros [= -> -> ->]. split; [done |]. by apply IHl.
Qed.

#[global] Instance json_eq_dec : EqDecision json.
Proof.
  intros x y. destruct (json_eqb x y) eqn:E.
  - left. by apply json_eqb_eq.
  - right. intros H. apply json_eqb_eq in H. congruence.
Defined.

#[global] Instance item_eq_dec : EqDecision item.
Proof. solve_decision. Defined.

#[global] Instance state_eq_dec : EqDecision state.
Proof. solve_decision. Defined.

(** ** Runs of a program *)

Lemma elem_of_outcomes_bind {A B} (m : prog randE A) (f : A → prog randE B) o :
  o ∈ outcomes (bind m f) ↔
    (∃ e, o = inl e ∧ inl e ∈ outcomes m) ∨
    (∃ a, inr a ∈ outcomes m ∧ o ∈ outcomes (f a)).
Proof.
  induction m as [a | e | X op k IH]; simpl.
  - setoid_rewrite list_elem_of_singleton. split; [| naive_solver].
    intros H. right. by exists a.
  - setoid_rewrite list_elem_of_singleton. naive_solver.
  - destruct op as [lo hi]. rewrite list_elem_of_bind. split.
    + intros (r & Ho & Hr). apply IH in Ho as [(e & -> & He) | (a & Ha & Ho)].
      * left. exists e. split; [done |]. apply list_elem_of_bind. eauto.
      * right. exists a. split; [| done]. apply list_elem_of_bind. eauto.
    + intros [(e & -> & He) | (a & Ha & Ho)].
      * apply list_elem_of_bind in He as (r & He & Hr).
        exists r. split; [| done]. apply IH. eauto.
      * apply list_elem_of_bind in Ha as (r & Ha & Hr).
        exists r. split; [| done]. apply IH. eauto.
Qed.

Lemma yields_bind {A B} (m : prog randE A) (f : A → prog randE B) b :
  yields (m ≫= f) b ↔ ∃ a, yields m a ∧ yields (f a) b.
Proof.
  unfold yields, mbind, prog_bind. rewrite elem_of_outcomes_bind.
  split; [| naive_solver]. intros [(e & [=] & _) | H]; done.
Qed.

Lemma yields_ret {A} (a b : A) : yields (Ret (E:=randE) a) b ↔ a = b.
Proof. unfold yields; simpl. rewrite list_elem_of_singleton. naive_solver. Qed.

Lemma yields_raise {A} e (b : A) : ¬ yields (Raise (E:=randE) e) b.
Proof. unfold yields; simpl. rewrite list_elem_of_singleton. naive_solver. Qed.

Lemma yields_randint lo hi r :
  yields (randint lo hi) r ↔ lo ≤ r ≤ hi.
Proof.
  unfold randint. destruct (Z.ltb_spec hi lo).
  - split; [by intros ?%yields_raise | lia].
  - unfold yields, trigger; simpl. rewrite list_elem_of_bind. split.
    + intros (r' & Hr & Hin). apply list_elem_of_singleton in Hr as [= ->].
      unfold randint_values in Hin. apply elem_of_seqZ in Hin. lia.
    + intros Hr. exists r. split; [by apply list_elem_of_singleton |].
      apply elem_of_seqZ. lia.
Qed.

Lemma never_raises_bind {A B} (m : prog randE A) (f : A → prog randE B) :
  never_raises m → (∀ a, yields m a → never_raises (f a)) →
  never_raises (m ≫= f).
Proof.
  intros Hm Hf e. unfold mbind, prog_bind. rewrite elem_of_outcomes_bind.
  intros [(e' & [= <-] & He) | (a & Ha & He)].
  - by apply (Hm e).
  - by apply (Hf a Ha e).
Qed.

Lemma never_raises_ret {A} (a : A) : never_raises (Ret (E:=randE) a).
Proof. intros e. simpl. rewrite list_elem_of_singleton. naive_solver. Qed.

Lemma never_raises_randint lo hi : lo ≤ hi → never_raises (randint lo hi).
Proof.
  intros Hle e. unfold randint. destruct (Z.ltb_spec hi lo); [lia |].
  unfold trigger; simpl. rewrite list_elem_of_bind.
  intros (r & Hr & _). by apply list_elem_of_singleton in Hr.
Qed.

(** A program always has a run: [randint] never draws from nothing. *)
Lemma outcomes_bind_nonempty {A B} (m : prog randE A) (f : A → prog randE B) :
  outcomes m ≠ [] → (∀ a, outcomes (f a) ≠ []) → outcomes (bind m f) ≠ [].
Proof.
  intros Hm Hf. destruct (outcomes m) as [| o l] eqn:E; [done |].
  assert (o ∈ outcomes m) as Ho by (rewrite E; left).
  destruct o as [e | a].
  - intros Hnil.
    assert (inl e ∈ outcomes (bind m f)) as Hin
      by (apply elem_of_outcomes_bind; eauto).
    rewrite Hnil in Hin. by apply not_elem_of_nil in Hin.
  - destruct (outcomes (f a)) as [| o' l'] eqn:E'; [by destruct (Hf a) |].
    intros Hnil.
    assert (o' ∈ outcomes (bind m f)) as Hin.
    { apply elem_of_outcomes_bind. right. exists a. split; [done |].
      rewrite E'. left. }
    rewrite Hnil in Hin. by apply not_elem_of_nil in Hin.
Qed.

Lemma outcomes_randint_nonempty lo hi : outcomes (randint lo hi) ≠ [].
Proof.
  unfold randint. destruct (Z.ltb_spec hi lo); [done |].
  unfold trigger; simpl. unfold randint_values.
  rewrite seqZ_cons by lia. done.
Qed.

(** ** The sampler, one step at a time *)

Lemma offer_seen k st it : uri it ∈ seen_uris st → offer k st it = Ret st.
Proof. intros H. unfold offer. by rewrite bool_decide_eq_true_2. Qed.

(** What a turn of the reservoir can do to the state. *)
Lemma offer_yields k st it st' :
  yields (offer k st it) st' →
  (st' = st ∧ uri it ∈ seen_uris st) ∨
  ((uri it ∉ seen_uris st) ∧
   seen_uris st' = {[uri it]} ∪ seen_uris st ∧
   n st' = n st + 1 ∧
   ((len (sample st) < k ∧ sample st' = sample st ++ [it]) ∨
    (k ≤ len (sample st) ∧ ∃ r, 0 ≤ r ≤ n st ∧
       ((r < k ∧ sample st' = <[Z.to_nat r := it]> (sample st)) ∨
        (k ≤ r ∧ sample st' = sample st))))).
Proof.
  unfold offer. case_bool_decide as Hseen.
  - intros <-%yields_ret. by left.
  - intros H. right. split; [done |].
    destruct (Z.ltb_spec (len (sample st)) k) as [Hlt | Hge].
    + apply yields_ret in H as <-. simpl. eauto 10.
    + apply yields_bind in H as (r & Hr%yields_randint & H).
      destruct (Z.ltb_spec r k).
      * unfold py_setitem in H. rewrite bool_decide_eq_true_2 in H by lia.
        simpl in H. apply yields_ret in H as <-. simpl.
        do 2 (split; [done |]). right. split; [done |].
        exists r. split; [lia |]. by left.
      * apply yields_ret in H as <-. simpl.
        do 2 (split; [done |]). right. split; [done |].
        exists r. split; [lia |]. by right.
Qed.

Lemma offer_never_raises k st it : 0 ≤ n st → never_raises (offer k st it).
Proof.
  intros Hn. unfold offer. case_bool_decide; [apply never_raises_ret |].
  destruct (Z.ltb_spec (len (sample st)) k); [apply never_raises_ret |].
  apply never_raises_bind; [apply never_raises_randint; lia |].
  intros r Hr%yields_randint. destruct (Z.ltb_spec r k).
  - unfold py_setitem. rewrite bool_decide_eq_true_2 by lia. simpl.
    apply never_raises_ret.
  - apply never_raises_ret.
Qed.

Lemma offer_outcomes_nonempty k st it : outcomes (offer k st it) ≠ [].
Proof.
  unfold offer. case_bool_decide; [done |].
  destruct (len (sample st) <? k); [done |].
  apply outcomes_bind_nonempty; [apply outcomes_randint_nonempty |].
  intros r. destruct (r <? k); [| done].
  destruct (py_setitem (sample st) r it); done.
Qed.

Lemma body_accepted k st evt it :
  qualifies evt it → body k st evt = offer k st it.
Proof. unfold qualifies, body. by intros ->. Qed.

Lemma body_yields k st evt st' :
  yields (body k st evt) st' →
  match accepted_item evt with
  | Some it => yields (offer k st it) st'
  | None => st' = st
  end.
Proof.
  unfold body, accepted_item. destruct (candidate evt) as [e | [it |]]; simpl.
  - by intros ?%yields_raise.
  - done.
  - by intros ->%yields_ret.
Qed.

(** A property of the items offered so far and the state, kept by every
    turn of the reservoir, holds after the loop. *)
Lemma loop_invariant (R : list item → state → Prop) k :
  (∀ its st it st', R its st → yields (offer k st it) st' → R (its ++ [it]) st') →
  ∀ evts its st st',
    R its st → yields (loop k st evts) st' → R (its ++ accepted evts) st'.
Proof.
  intros Hstep evts. induction evts as [| evt evts IH]; intros its st st' HR; simpl.
  - intros <-%yields_ret. by rewrite app_nil_r.
  - intros (st1 & H1%body_yields & H2)%yields_bind.
    unfold accepted; simpl. destruct (accepted_item evt) as [it |].
    + rewrite (assoc_L _ its [it] _ : its ++ it :: _ = (its ++ [it]) ++ _).
      eapply IH; [| done]. by eapply Hstep.
    + subst st1. by eapply IH.
Qed.

Lemma loop_never_raises k evts st :
  0 ≤ n st → Forall well_formed evts → never_raises (loop k st evts).
Proof.
  intros Hn Hwf. revert st Hn.
  induction Hwf as [| evt evts [c Hc] _ IH]; intros st Hn; simpl.
  - apply never_raises_ret.
  - apply never_raises_bind.
    + unfold body. rewrite Hc. simpl. destruct c; [| apply never_raises_ret].
      by apply offer_never_raises.
    + intros st1 H1. apply IH.
      apply body_yields in H1. destruct (accepted_item evt); [| by subst].
      apply offer_yields in H1 as [[-> _] | (_ & _ & -> & _)]; lia.
Qed.

Lemma loop_outcomes_nonempty k evts st : outcomes (loop k st evts) ≠ [].
Proof.
  revert st. induction evts as [| evt evts IH]; intros st; simpl; [done |].
  apply outcomes_bind_nonempty; [| done].
  unfold body. destruct (candidate evt) as [e | [it |]]; simpl; try done.
  apply offer_outcomes_nonempty.
Qed.

Lemma yields_head {A} (p : prog randE A) a l :
  outcomes p = inr a :: l → yields p a.
Proof. unfold yields. intros ->. left. Qed.

(** [yields] on a closed program is settled by running it. *)
Lemma yields_decide (p : prog randE state) st :
  bool_decide (inr st ∈ outcomes p) = true → yields p st.
Proof. apply bool_decide_eq_true_1. Qed.

Lemma len_app {A} (l1 l2 : list A) : len (l1 ++ l2) = len l1 + len l2.
Proof. unfold len. rewrite length_app. lia. Qed.

Lemma len_insert {A} (l : list A) i x : len (<[i:=x]> l) = len l.
Proof. unfold len. by rewrite length_insert. Qed.

(** ** Invariants of the sampler loop *)

(** The set of seen uris is the set of the uris of the accepted items. *)
Lemma loop_seen k evts st st' :
  yields (loop k st evts) st' →
  seen_uris st' = list_to_set (uri <$> accepted evts) ∪ seen_uris st.
Proof.
  intros H.
  apply (loop_invariant
           (λ its s, seen_uris s = list_to_set (uri <$> its) ∪ seen_uris st) k)
    with (its := []) in H; [done | | set_solver].
  clear. intros its s it s' HR Hs'. rewrite fmap_app, list_to_set_app_L. simpl.
  apply offer_yields in Hs' as [[-> Hin] | (_ & -> & _)]; set_solver.
Qed.

(** The count goes with the seen uris, one for one. *)
Lemma loop_count k evts st st' :
  n st = Z.of_nat (size (seen_uris st)) →
  yields (loop k st evts) st' →
  n st' = Z.of_nat (size (seen_uris st')).
Proof.
  intros Hn H.
  apply (loop_invariant (λ _ s, n s = Z.of_nat (size (seen_uris s))) k)
    with (its := []) in H; [done | | done].
  clear. intros _ s it s' HR Hs'.
  apply offer_yields in Hs' as [[-> _] | (Hnew & -> & -> & _)]; [done |].
  rewrite size_union by set_solver. rewrite size_singleton. lia.
Qed.

(** The sample holds the first [k] items, then stays at [k]. *)
Lemma loop_capacity k evts st st' :
  0 ≤ k → 0 ≤ n st → len (sample st) = Z.min (n st) k →
  yields (loop k st evts) st' →
  0 ≤ n st' ∧ len (sample st') = Z.min (n st') k.
Proof.
  intros Hk Hn Hlen H.
  apply (loop_invariant (λ _ s, 0 ≤ n s ∧ len (sample s) = Z.min (n s) k) k)
    with (its := []) in H; [done | | done].
  clear -Hk. intros _ s it s' [Hn Hlen] Hs'.
  apply offer_yields in Hs'
    as [[-> _] | (_ & _ & -> & [[Hlt ->] | (Hge & r & Hr & [[Hrk ->] | [_ ->]])])].
  - done.
  - rewrite len_app. change (len [it]) with 1. lia.
  - rewrite len_insert. lia.
  - lia.
Qed.

Lemma size_list_to_set_remove_dups (l : list string) :
  Z.of_nat (size (list_to_set l : gset string)) = len (remove_dups l).
Proof.
  unfold len. rewrite <- (size_list_to_set (C:=gset string) (remove_dups l))
    by apply NoDup_remove_dups.
  do 2 f_equal. apply set_eq. intros x.
  by rewrite !elem_of_list_to_set, elem_of_remove_dups.
Qed.

(** The count after the loop is the number of distinct accepted uris. *)
Lemma loop_init_count k evts st :
  yields (loop k init evts) st →
  n st = Z.of_nat (size (seen_uris st)) ∧
  seen_uris st = list_to_set (uri <$> accepted evts) ∧
  n st = distinct_accepted evts.
Proof.
  intros H. pose proof (loop_seen _ _ _ _ H) as Hseen.
  assert (n init = Z.of_nat (size (seen_uris init))) as Hn0
    by reflexivity.
  pose proof (loop_count _ _ _ _ Hn0 H) as Hn. simpl in Hseen.
  rewrite (right_id_L ∅ (∪)) in Hseen.
  split_and!; [done | done |].
  rewrite Hn, Hseen. apply size_list_to_set_remove_dups.
Qed.

(** ** The loop body on malformed messages *)

(** C3 (the code departs from it): a message whose commit creates but has
    no record makes the loop body raise [AttributeError], at
    [record.get("text")] on [None], and a qualifying post without [did]
    makes it raise [TypeError], at the concatenation of the uri; the
    exception leaves the loop, for any capacity. *)
Theorem malformed_event_raises (k : Z) :
  candidate create_without_record = inl AttributeError ∧
  candidate create_without_did = inl TypeError ∧
  outcomes (loop k init [create_without_record]) = [inl AttributeError] ∧
  outcomes (loop k init [create_without_did]) = [inl TypeError].
Proof. by split_and!. Qed.

(** ** Algorithm R *)

(** C4: for an item not seen before, the count is incremented first; with
    room left the item is appended and nothing is drawn; otherwise an
    integer [r] is drawn from [[0, n - 1]], [n] the incremented count, the
    item overwrites [sample[r]] when [r < k], an index of the sample, and is
    dropped otherwise. *)
Theorem algorithm_R_step (k : Z) (st : state) (it : item) :
  uri it ∉ seen_uris st → 0 ≤ n st →
  let n' := n st + 1 in
  let seen' := {[uri it]} ∪ seen_uris st in
  (len (sample st) < k →
   offer k st it =
     Ret {| sample := sample st ++ [it]; seen_uris := seen'; n := n' |}) ∧
  (k ≤ len (sample st) →
   ∃ cont, offer k st it = Vis (RandintE 0 (n' - 1)) cont ∧
     ∀ r, 0 ≤ r ≤ n' - 1 →
       (r < k →
        (Z.to_nat r < length (sample st))%nat ∧
        cont r = Ret {| sample := <[Z.to_nat r := it]> (sample st);
                        seen_uris := seen'; n := n' |}) ∧
       (k ≤ r →
        cont r = Ret {| sample := sample st; seen_uris := seen'; n := n' |})).
Proof.
  intros Hnew Hn n' seen'. unfold offer.
  rewrite bool_decide_eq_false_2 by done. fold n' seen'. split.
  - intros Hlt. by destruct (Z.ltb_spec (len (sample st)) k); [| lia].
  - intros Hge. destruct (Z.ltb_spec (len (sample st)) k); [lia |].
    unfold randint. destruct (Z.ltb_spec (n' - 1) 0); [lia |].
    eexists. split; [reflexivity |]. intros r Hr. simpl. split.
    + intros Hrk. destruct (Z.ltb_spec r k); [| lia].
      unfold py_setitem. rewrite bool_decide_eq_true_2 by lia.
      split; [unfold len in *; lia | done].
    + intros Hrk. by destruct (Z.ltb_spec r k); [lia |].
Qed.

Lemma algorithm_R_step_witness :
  let st := {| sample := [Item "at://a/c/1" "a" "1" JNull];
               seen_uris := {["at://a/c/1"]}; n := 1 |} in
  let it := Item "at://b/c/2" "b" "2" JNull in
  (uri it ∉ seen_uris st) ∧ 0 ≤ n st ∧
  ∃ cont, offer 1 st it = Vis (RandintE 0 1) cont ∧
          cont 0 = Ret {| sample := [it];
                          seen_uris := {[uri it]} ∪ seen_uris st; n := 2 |} ∧
          cont 1 = Ret {| sample := sample st;
                          seen_uris := {[uri it]} ∪ seen_uris st; n := 2 |}.
Proof.
  intros st it.
  assert (uri it ∉ seen_uris st) as Hnew by (by vm_compute).
  assert (0 ≤ n st) as Hn by (simpl; lia).
  split; [done |]. split; [done |].
  destruct (algorithm_R_step 1 st it Hnew Hn) as [_ H].
  destruct H as (cont & Hoffer & Hcont); [unfold len; simpl; lia |].
  exists cont. split; [exact Hoffer |].
  assert (0 ≤ 0 ≤ n st + 1 - 1) as H0 by (simpl; lia).
  assert (0 ≤ 1 ≤ n st + 1 - 1) as H1 by (simpl; lia).
  destruct (Hcont 0 H0) as [Hlt _]. destruct (Hcont 1 H1) as [_ Hge].
  destruct Hlt as [_ ->]; [lia |]. rewrite Hge by lia. done.
Defined.

(** ** Capacity *)

(** C5: with a capacity [k ≥ 0], after any list of messages the sample
    holds [min(N, k)] items, [N] the number of accepted, deduplicated items
    among them, hence never more than [k]; this holds after every prefix of
    the messages as well, the statement being for all lists.  The loop
    raises on no list of well-formed messages, and always has a run. *)
Theorem capacity_invariant (k : Z) (evts : list json) :
  0 ≤ k →
  (∀ st, yields (loop k init evts) st →
         n st = distinct_accepted evts ∧
         len (sample st) ≤ k ∧
         len (sample st) = Z.min (distinct_accepted evts) k) ∧
  (Forall well_formed evts → never_raises (loop k init evts)) ∧
  outcomes (loop k init evts) ≠ [].
Proof.
  intros Hk. split_and!.
  - intros st H. destruct (loop_init_count _ _ _ H) as (_ & _ & HN).
    destruct (loop_capacity k evts init st) as [_ Hlen];
      [done | done | unfold len; simpl; lia | done |].
    split_and!; [done | lia | lia].
  - by apply loop_never_raises.
  - apply loop_outcomes_nonempty.
Qed.

Lemma capacity_invariant_witness :
  0 ≤ 1 ∧ yields (loop 1 init [post_a; post_b; post_a]) kept_a ∧
  len (sample kept_a) = Z.min (distinct_accepted [post_a; post_b; post_a]) 1.
Proof.
  assert (yields (loop 1 init [post_a; post_b; post_a]) kept_a) as Hy
    by (apply yields_decide; by vm_compute).
  split; [lia |]. split; [exact Hy |].
  destruct (capacity_invariant 1 [post_a; post_b; post_a]) as (H & _ & _);
    [lia |].
  by destruct (H kept_a Hy) as (_ & _ & ?).
Defined.

(** ** Deduplication *)

(** Goes one step into a computation that is known to return. *)
Ltac step_result H :=
  cbn [mbind result_bind] in H;
  lazymatch type of H with
  | mbind _ ?m = _ =>
      let E := fresh "E" in
      destruct m eqn:E; cbn [mbind result_bind] in H; [discriminate H |]
  | (if ?b then _ else _) = _ =>
      let E := fresh "E" in
      destruct b eqn:E; [discriminate H |]
  end.

Lemma as_str_inr j s : as_str j = inr s → j = JStr s.
Proof. destruct j; simpl; congruence. Qed.

(** The uri of an accepted item is composed from the [did] of the message
    and the [collection] and [rkey] of its commit. *)
Lemma candidate_uri evt it :
  qualifies evt it →
  ∃ commit collection,
    py_get evt "commit" = inr commit ∧
    py_get evt "did" = inr (JStr (did it)) ∧
    py_get commit "collection" = inr (JStr collection) ∧
    py_get commit "rkey" = inr (JStr (rkey it)) ∧
    uri it = ("at://" ++ did it ++ "/" ++ collection ++ "/" ++ rkey it)%string.
Proof.
  unfold qualifies, candidate. intros H.
  do 17 step_result H. cbv [mret result_ret] in H. injection H as <-. simpl.
  match goal with
  | Hd : as_str _ = inr ?d, Hc : as_str _ = inr ?c, Hr : as_str _ = inr ?r
    |- context [(?d ++ "/" ++ ?c ++ "/" ++ ?r)%string] =>
      apply as_str_inr in Hd as ->; apply as_str_inr in Hc as ->;
      apply as_str_inr in Hr as ->
  end.
  match goal with
  | Hc : py_get ?j "collection" = inr (JStr ?c) |- _ => exists j, c
  end.
  split_and!; try done.
  destruct evt as [| | | | | kvs]; try discriminate.
  unfold py_get, py_get_default in *.
  destruct (assoc "commit" kvs); [done |].
  match goal with
  | E : inr (default _ None) = inr ?j, T : negb (truthy ?j) = false |- _ =>
      injection E as <-; discriminate T
  end.
Qed.

(** C6: the identity of a qualifying message is the string
    ["at://{did}/{collection}/{rkey}"]; and once a message with some uri
    was accepted, a later qualifying message with the same uri leaves
    the loop body at the [continue] of the membership test: the state is
    returned as it is, with the count not incremented, nothing drawn and
    the sample untouched. *)
Theorem dedup_first_only (k : Z) (evts1 evts2 : list json) (e e' : json)
    (it it' : item) (st : state) :
  qualifies e it → qualifies e' it' → uri it' = uri it →
  yields (loop k init (evts1 ++ e :: evts2)) st →
  (∃ commit collection,
     py_get e' "commit" = inr commit ∧
     py_get e' "did" = inr (JStr (did it')) ∧
     py_get commit "collection" = inr (JStr collection) ∧
     py_get commit "rkey" = inr (JStr (rkey it')) ∧
     uri it' =
       ("at://" ++ did it' ++ "/" ++ collection ++ "/" ++ rkey it')%string) ∧
  uri it' ∈ seen_uris st ∧
  body k st e' = Ret st.
Proof.
  intros He He' Huri H. split; [by apply candidate_uri |].
  assert (uri it' ∈ seen_uris st) as Hseen.
  { rewrite (loop_seen _ _ _ _ H), Huri.
    apply elem_of_union_l, elem_of_list_to_set, list_elem_of_fmap_2.
    unfold accepted. apply list_elem_of_omap. exists e. split.
    - apply elem_of_app. right. left.
    - unfold accepted_item. by rewrite He. }
  split; [done |].
  rewrite (body_accepted _ _ _ _ He'). by apply offer_seen.
Qed.

Lemma dedup_first_only_witness :
  qualifies post_a item_a ∧
  yields (loop 1 init ([] ++ post_a :: [post_b])) kept_a ∧
  body 1 kept_a post_a = Ret kept_a.
Proof.
  assert (yields (loop 1 init ([] ++ post_a :: [post_b])) kept_a) as Hy
    by (apply yields_decide; by vm_compute).
  split; [reflexivity |]. split; [exact Hy |].
  by destruct (dedup_first_only 1 [] [post_b] post_a post_a item_a item_a
                 kept_a eq_refl eq_refl eq_refl Hy) as (_ & _ & ?).
Defined.

(** ** The count and the seen uris *)

(** C10: after any list of messages and for any capacity, the count equals
    the number of seen uris, and both equal the number of accepted,
    deduplicated items: the set of seen uris is the set of all their uris,
    whatever the capacity is. *)
Theorem count_is_seen (k : Z) (evts : list json) (st : state) :
  yields (loop k init evts) st →
  n st = Z.of_nat (size (seen_uris st)) ∧
  seen_uris st = list_to_set (uri <$> accepted evts) ∧
  Z.of_nat (size (seen_uris st)) = distinct_accepted evts.
Proof.
  intros H. destruct (loop_init_count _ _ _ H) as (Hn & Hseen & HN).
  split_and!; [done | done | congruence].
Qed.

Lemma count_is_seen_witness :
  yields (loop 1 init [post_a; post_b; post_a]) kept_a ∧
  n kept_a = Z.of_nat (size (seen_uris kept_a)) ∧
  Z.of_nat (size (seen_uris kept_a)) = 2.
Proof.
  assert (yields (loop 1 init [post_a; post_b; post_a]) kept_a) as Hy
    by (apply yields_decide; by vm_compute).
  split; [exact Hy |].
  destruct (count_is_seen 1 [post_a; post_b; post_a] kept_a Hy)
    as (Hn & _ & HN).
  split; [exact Hn |]. rewrite HN. by vm_compute.
Defined.

(** ** Sums and expected values *)

Lemma sumQc_cons x l : sumQc (x :: l) = (x + sumQc l)%Qc.
Proof. reflexivity. Qed.

Lemma sumQc_app l1 l2 : sumQc (l1 ++ l2) = (sumQc l1 + sumQc l2)%Qc.
Proof.
  induction l1 as [| x l1 IH].
  - simpl. by rewrite Qcplus_0_l.
  - rewrite <- app_comm_cons, !sumQc_cons, IH. ring.
Qed.

Lemma sumQc_fmap_ext {A} (f g : A → Qc) l :
  (∀ x, x ∈ l → f x = g x) → sumQc (f <$> l) = sumQc (g <$> l).
Proof.
  induction l as [| x l IH]; intros H; [done |].
  rewrite !fmap_cons, !sumQc_cons. rewrite (H x) by left.
  rewrite IH; [done |]. intros y Hy. apply H. by right.
Qed.

Lemma sumQc_scale {A} (c : Qc) (f : A → Qc) l :
  sumQc ((λ x, c * f x)%Qc <$> l) = (c * sumQc (f <$> l))%Qc.
Proof.
  induction l as [| x l IH].
  - simpl. by rewrite Qcmult_0_r.
  - rewrite !fmap_cons, !sumQc_cons, IH. ring.
Qed.

Lemma sumQc_const_on {A} (c : Qc) (f : A → Qc) l :
  (∀ x, x ∈ l → f x = c) → sumQc (f <$> l) = (Qc_of_Z (len l) * c)%Qc.
Proof.
  induction l as [| x l IH]; intros H.
  - replace (len (@nil A)) with 0 by done. rewrite Z2Qc_inj_0.
    change (sumQc (f <$> [])) with 0%Qc. ring.
  - rewrite fmap_cons, sumQc_cons. rewrite (H x) by left.
    rewrite IH by (intros y Hy; apply H; by right).
    replace (len (x :: l)) with (1 + len l)
      by (unfold len; simpl length; lia).
    rewrite Z2Qc_inj_add, Z2Qc_inj_1. ring.
Qed.

Lemma len_seqZ m i : 0 ≤ i → len (seqZ m i) = i.
Proof. intros. unfold len. rewrite length_seqZ. lia. Qed.

(** Among [0 .. m-1], all but [p] are counted. *)
Lemma sumQc_all_but p m :
  0 ≤ p < m →
  sumQc ((λ r : Z, if decide (r = p) then 0%Qc else 1%Qc) <$> seqZ 0 m)
  = Qc_of_Z (m - 1).
Proof.
  intros Hp.
  replace m with (p + (1 + (m - p - 1))) at 1 by lia.
  rewrite seqZ_app, seqZ_app by lia.
  rewrite !fmap_app, !sumQc_app.
  rewrite (sumQc_const_on 1%Qc _ (seqZ 0 p)).
  2:{ intros r Hr%elem_of_seqZ. by rewrite decide_False by lia. }
  rewrite (sumQc_const_on 0%Qc _ (seqZ (0 + p) 1)).
  2:{ intros r Hr%elem_of_seqZ. by rewrite decide_True by lia. }
  rewrite (sumQc_const_on 1%Qc _ (seqZ (0 + p + 1) (m - p - 1))).
  2:{ intros r Hr%elem_of_seqZ. by rewrite decide_False by lia. }
  rewrite !len_seqZ by lia.
  replace (m - 1) with (p + (m - p - 1)) by lia.
  rewrite Z2Qc_inj_add. ring.
Qed.

(** Among [0 .. m-1], those below [k] are counted. *)
Lemma sumQc_below k m :
  0 ≤ k ≤ m →
  sumQc ((λ r : Z, if decide (r < k) then 1%Qc else 0%Qc) <$> seqZ 0 m)
  = Qc_of_Z k.
Proof.
  intros Hk.
  replace m with (k + (m - k)) at 1 by lia.
  rewrite seqZ_app by lia. rewrite fmap_app, sumQc_app.
  rewrite (sumQc_const_on 1%Qc _ (seqZ 0 k)).
  2:{ intros r Hr%elem_of_seqZ. by rewrite decide_True by lia. }
  rewrite (sumQc_const_on 0%Qc _ (seqZ (0 + k) (m - k))).
  2:{ intros r Hr%elem_of_seqZ. by rewrite decide_False by lia. }
  rewrite !len_seqZ by lia. ring.
Qed.

Lemma expect_bind {A B} (m : prog randE A) (f : A → prog randE B) g :
  expect (m ≫= f) g = expect m (λ a, expect (f a) g).
Proof.
  unfold mbind, prog_bind.
  induction m as [a | e | X op k IH]; simpl; [done | done |].
  destruct op as [lo hi]. f_equal. f_equal.
  apply list_fmap_ext. intros _ r _. apply IH.
Qed.

Lemma yields_vis {A} lo hi (k : Z → prog randE A) r a :
  r ∈ randint_values lo hi → yields (k r) a → yields (Vis (RandintE lo hi) k) a.
Proof. intros Hr Ha. unfold yields; simpl. apply list_elem_of_bind. eauto. Qed.

(** Only the results a program can return matter to an expected value. *)
Lemma expect_ext {A} (p : prog randE A) (f g : A → Qc) :
  (∀ a, yields p a → f a = g a) → expect p f = expect p g.
Proof.
  induction p as [a | e | X op k IH]; intros H; simpl.
  - apply H. by apply yields_ret.
  - done.
  - destruct op as [lo hi]. f_equal.
    apply sumQc_fmap_ext. intros r Hr. apply IH.
    intros a Ha. apply H. by eapply yields_vis.
Qed.

Lemma expect_scale {A} (p : prog randE A) (c : Qc) (f : A → Qc) :
  expect p (λ a, c * f a)%Qc = (c * expect p f)%Qc.
Proof.
  induction p as [a | e | X op k IH]; simpl.
  - done.
  - ring.
  - destruct op as [lo hi].
    rewrite (sumQc_fmap_ext _ (λ r, c * expect (k r) f)%Qc)
      by (intros; apply IH).
    rewrite sumQc_scale. unfold Qcdiv. ring.
Qed.

Lemma loop_snoc_expect k st evts e (f : state → Qc) :
  expect (loop k st (evts ++ [e])) f
  = expect (loop k st evts) (λ st', expect (body k st' e) f).
Proof.
  revert st. induction evts as [| e0 evts IH]; intros st; simpl.
  - rewrite expect_bind. by apply expect_ext.
  - rewrite !expect_bind. apply expect_ext. intros st' _. apply IH.
Qed.

(** ** The reservoir on distinct items *)

Lemma elem_of_insert_inv {A} (l : list A) i x y :
  x ∈ <[i:=y]> l → x = y ∨ x ∈ l.
Proof.
  intros (j & Hj)%list_elem_of_lookup.
  apply list_lookup_insert_Some in Hj as [(_ & -> & _) | [_ Hj]]; [by left |].
  right. by eapply list_elem_of_lookup_2.
Qed.

Lemma NoDup_insert_fresh {A} (l : list A) i y :
  NoDup l → y ∉ l → NoDup (<[i:=y]> l).
Proof.
  intros Hl Hy. apply NoDup_alt. intros j1 j2 x H1 H2.
  apply list_lookup_insert_Some in H1 as [(<- & <- & _) | [Hne1 H1]];
    apply list_lookup_insert_Some in H2 as [(<- & E & _) | [Hne2 H2]].
  - done.
  - destruct Hy. by eapply list_elem_of_lookup_2.
  - subst x. destruct Hy. by eapply list_elem_of_lookup_2.
  - by eapply NoDup_lookup.
Qed.

Lemma accepted_qualifies evts its :
  Forall2 qualifies evts its → accepted evts = its.
Proof.
  unfold accepted. induction 1 as [| evt it evts its Hq _ IH]; csimpl; [done |].
  unfold accepted_item at 1. rewrite Hq. by rewrite IH.
Qed.

Lemma qualifies_well_formed evts its :
  Forall2 qualifies evts its → Forall well_formed evts.
Proof.
  induction 1 as [| evt it evts its Hq _ IH]; constructor; [| done].
  by exists (Some it).
Qed.

(** On messages with distinct uris, every item is counted, and the sample
    holds some of them, each once. *)
Lemma loop_distinct k evts its st :
  Forall2 qualifies evts its → NoDup (uri <$> its) →
  yields (loop k init evts) st →
  n st = len its ∧
  seen_uris st = list_to_set (uri <$> its) ∧
  (∀ x, x ∈ sample st → x ∈ its) ∧
  NoDup (sample st).
Proof.
  intros Hq Hnd H.
  pose (R := λ (its : list item) (s : state),
          NoDup (uri <$> its) →
          n s = len its ∧
          seen_uris s = list_to_set (uri <$> its) ∧
          (∀ x, x ∈ sample s → x ∈ its) ∧
          NoDup (sample s)).
  assert (R ([] ++ accepted evts) st) as HR.
  2:{ rewrite (accepted_qualifies _ _ Hq) in HR. by apply HR. }
  revert H. apply (loop_invariant R k).
  - clear. unfold R. intros its s it s' HR Hs' Hnd.
    rewrite fmap_app in Hnd. apply NoDup_app in Hnd as (Hnd & Hfresh & _).
    destruct (HR Hnd) as (Hn & Hseen & Hsub & Hsample).
    assert (uri it ∉ uri <$> its) as Hit.
    { intros Hin. apply (Hfresh _ Hin). simpl. left. }
    assert (it ∉ sample s) as Hit'.
    { intros Hin. apply Hit, list_elem_of_fmap_2. by apply Hsub. }
    apply offer_yields in Hs'
      as [[-> Hin] | (_ & -> & -> & Hs')].
    { rewrite Hseen, elem_of_list_to_set in Hin. done. }
    split_and!.
    + rewrite len_app, Hn. change (len [it]) with 1. lia.
    + rewrite fmap_app, list_to_set_app_L, Hseen. simpl. set_solver.
    + intros x Hx. apply elem_of_app.
      destruct Hs' as [[_ E] | (_ & r & _ & [[_ E] | [_ E]])];
        rewrite E in Hx.
      * apply elem_of_app in Hx as [Hx | Hx]; [left; by apply Hsub | by right].
      * apply elem_of_insert_inv in Hx as [-> | Hx];
          [right; left | left; by apply Hsub].
      * left. by apply Hsub.
    + destruct Hs' as [[_ ->] | (_ & r & _ & [[_ ->] | [_ ->]])].
      * apply NoDup_app. split_and!; [done | | apply NoDup_singleton].
        intros x Hx ->%list_elem_of_singleton. done.
      * by apply NoDup_insert_fresh.
      * done.
  - intros _. split_and!; try done. apply NoDup_nil_2.
Qed.

(** With room left, the item is appended, whatever is observed next. *)
Lemma expect_offer_append k st it (f : state → Qc) :
  uri it ∉ seen_uris st → len (sample st) < k →
  expect (offer k st it) f
  = f {| sample := sample st ++ [it];
         seen_uris := {[uri it]} ∪ seen_uris st; n := n st + 1 |}.
Proof.
  intros Hnew Hlt. unfold offer. rewrite bool_decide_eq_false_2 by done.
  by destruct (Z.ltb_spec (len (sample st)) k); [| lia].
Qed.

(** With the sample full, the observation is averaged over the draws. *)
Lemma expect_offer_draw k st it (f : state → Qc) :
  uri it ∉ seen_uris st → k ≤ len (sample st) → 0 ≤ n st →
  expect (offer k st it) f
  = Qcdiv
      (sumQc ((λ r : Z,
         f {| sample := if decide (r < k) then <[Z.to_nat r := it]> (sample st)
                        else sample st;
              seen_uris := {[uri it]} ∪ seen_uris st; n := n st + 1 |})
              <$> seqZ 0 (n st + 1)))
      (Qc_of_Z (n st + 1)).
Proof.
  intros Hnew Hge Hn. unfold offer. rewrite bool_decide_eq_false_2 by done.
  destruct (Z.ltb_spec (len (sample st)) k); [lia |].
  unfold randint. destruct (Z.ltb_spec (n st + 1 - 1) 0); [lia |].
  simpl. unfold randint_values.
  replace (n st + 1 - 1 - 0 + 1) with (n st + 1) by lia.
  f_equal. apply sumQc_fmap_ext. intros r Hr%elem_of_seqZ.
  destruct (Z.ltb_spec r k).
  - unfold py_setitem. rewrite bool_decide_eq_true_2 by lia. simpl.
    by rewrite decide_True by done.
  - simpl. by rewrite decide_False by lia.
Qed.

Lemma Qc_of_Z_nonzero z : z ≠ 0 → Qc_of_Z z ≠ 0%Qc.
Proof. intros Hz H. apply Hz, Z2Qc_inj. by rewrite Z2Qc_inj_0. Qed.

(** A turn of the reservoir returns with probability one. *)
Lemma expect_offer_const k st it (c : Qc) :
  0 ≤ n st → expect (offer k st it) (λ _, c) = c.
Proof.
  intros Hn. destruct (decide (uri it ∈ seen_uris st)) as [Hseen | Hnew].
  { by rewrite offer_seen. }
  destruct (Z.lt_ge_cases (len (sample st)) k).
  { by rewrite expect_offer_append. }
  rewrite expect_offer_draw by done.
  rewrite (sumQc_const_on c) by done. rewrite len_seqZ by lia.
  field. apply Qc_of_Z_nonzero. lia.
Qed.

Lemma expect_loop_const k evts st (c : Qc) :
  0 ≤ n st → Forall well_formed evts →
  expect (loop k st evts) (λ _, c) = c.
Proof.
  intros Hn Hwf. revert st Hn.
  induction Hwf as [| evt evts [o Ho] _ IH]; intros st Hn; simpl; [done |].
  rewrite expect_bind.
  rewrite (expect_ext _ _ (λ _, c)).
  - unfold body. rewrite Ho. simpl. destruct o; [| done].
    by apply expect_offer_const.
  - intros st1 H1. apply IH.
    apply body_yields in H1. destruct (accepted_item evt); [| by subst].
    apply offer_yields in H1 as [[-> _] | (_ & _ & -> & _)]; lia.
Qed.

(** An item of the sample that is not the newcomer survives a turn with
    probability [n / (n + 1)] once the sample is full, and surely before. *)
Lemma expect_offer_old k st y x :
  uri y ∉ seen_uris st → 0 ≤ k → 0 ≤ n st →
  len (sample st) = Z.min (n st) k → NoDup (sample st) → x ≠ y →
  expect (offer k st y) (λ s, if decide (x ∈ sample s) then 1%Qc else 0%Qc)
  = Qcmult (if decide (n st < k) then 1%Qc
            else Qcdiv (Qc_of_Z (n st)) (Qc_of_Z (n st + 1)))
           (if decide (x ∈ sample st) then 1%Qc else 0%Qc).
Proof.
  intros Hnew Hk Hn Hlen Hnd Hxy. destruct (decide (n st < k)) as [Hlt | Hge].
  - rewrite expect_offer_append by (done || lia). simpl.
    rewrite Qcmult_1_l. apply decide_ext.
    rewrite elem_of_app, list_elem_of_singleton. naive_solver.
  - rewrite expect_offer_draw by (done || lia). simpl.
    destruct (decide (x ∈ sample st)) as [Hin | Hout].
    + apply list_elem_of_lookup in Hin as [p Hp].
      assert (Z.of_nat p < k) as Hpk.
      { apply lookup_lt_Some in Hp. unfold len in Hlen. lia. }
      rewrite (sumQc_fmap_ext _
                 (λ r, if decide (r = Z.of_nat p) then 0%Qc else 1%Qc)).
      * rewrite sumQc_all_but by lia.
        replace (n st + 1 - 1) with (n st) by lia. by rewrite Qcmult_1_r.
      * intros r Hr%elem_of_seqZ.
        destruct (decide (r < k)) as [Hrk | Hrk].
        -- destruct (decide (r = Z.of_nat p)) as [-> | Hrp].
           ++ rewrite Nat2Z.id. apply decide_False.
              intros (j & Hj)%list_elem_of_lookup.
              apply list_lookup_insert_Some in Hj
                as [(_ & E & _) | [Hne Hj]]; [done |].
              apply Hne. by eapply NoDup_lookup.
           ++ apply decide_True. apply list_elem_of_lookup. exists p.
              rewrite list_lookup_insert_ne by lia. done.
        -- rewrite (decide_False (P := r = Z.of_nat p)) by lia.
           apply decide_True. by eapply list_elem_of_lookup_2.
    + rewrite (sumQc_const_on 0%Qc).
      * unfold Qcdiv. ring.
      * intros r _. apply decide_False. destruct (decide (r < k)); [| done].
        by intros [-> | Hin]%elem_of_insert_inv.
Qed.

(** The newcomer enters a full sample with probability [k / (n + 1)], and
    surely before. *)
Lemma expect_offer_new k st y :
  uri y ∉ seen_uris st → 0 ≤ k → 0 ≤ n st →
  len (sample st) = Z.min (n st) k → y ∉ sample st →
  expect (offer k st y) (λ s, if decide (y ∈ sample s) then 1%Qc else 0%Qc)
  = if decide (n st < k) then 1%Qc
    else Qcdiv (Qc_of_Z k) (Qc_of_Z (n st + 1)).
Proof.
  intros Hnew Hk Hn Hlen Hout. destruct (decide (n st < k)) as [Hlt | Hge].
  - rewrite expect_offer_append by (done || lia). simpl.
    apply decide_True. apply elem_of_app. right. left.
  - rewrite expect_offer_draw by (done || lia). simpl.
    rewrite (sumQc_fmap_ext _ (λ r, if decide (r < k) then 1%Qc else 0%Qc)).
    + by rewrite sumQc_below by lia.
    + intros r Hr%elem_of_seqZ. destruct (decide (r < k)) as [Hrk | Hrk].
      * apply decide_True. apply list_elem_of_insert. unfold len in Hlen. lia.
      * by apply decide_False.
Qed.

Lemma Qc_of_Z_succ z : Qc_of_Z (z + 1) = (Qc_of_Z z + 1)%Qc.
Proof. by rewrite Z2Qc_inj_add, Z2Qc_inj_1. Qed.

Lemma Qc_ratio_full (a : Qc) :
  a ≠ 0%Qc → (a + 1)%Qc ≠ 0%Qc → (1 * (a / a))%Qc = ((a + 1) / (a + 1))%Qc.
Proof. intros. by field. Qed.

Lemma Qc_ratio_step (a c : Qc) :
  a ≠ 0%Qc → (a + 1)%Qc ≠ 0%Qc →
  (a / (a + 1) * (c / a))%Qc = (c / (a + 1))%Qc.
Proof. intros. by field. Qed.

Lemma Qc_ratio_one (a : Qc) : a ≠ 0%Qc → 1%Qc = (a / a)%Qc.
Proof. intros. by field. Qed.

(** After [N ≥ 1] distinct qualifying messages, each of their items is in
    the sample with probability [min(k, N) / N]. *)
Lemma inclusion_probability k evts its x :
  0 ≤ k → Forall2 qualifies evts its → NoDup (uri <$> its) → x ∈ its →
  prob (loop k init evts) (λ st, x ∈ sample st)
  = Qcdiv (Qc_of_Z (Z.min k (len its))) (Qc_of_Z (len its)).
Proof.
  intros Hk. unfold prob. revert its x.
  induction evts as [| e evts IH] using rev_ind; intros its' x Hq Hnd Hx.
  { apply Forall2_nil_inv_l in Hq as ->. by apply not_elem_of_nil in Hx. }
  apply Forall2_app_inv_l in Hq as (its & ys & Hq & Hy & ->).
  apply Forall2_cons_inv_l in Hy as (y & ys' & Hy & ->%Forall2_nil_inv_l & ->).
  rewrite fmap_app in Hnd. apply NoDup_app in Hnd as (Hnd & Hfresh & _).
  assert (uri y ∉ uri <$> its) as Hyfresh.
  { intros Hin. apply (Hfresh _ Hin). simpl. left. }
  rewrite loop_snoc_expect.
  assert (∀ st, yields (loop k init evts) st →
                (uri y ∉ seen_uris st) ∧ 0 ≤ n st ∧ n st = len its ∧
                len (sample st) = Z.min (n st) k ∧ NoDup (sample st) ∧
                y ∉ sample st) as Hinv.
  { intros st Hst.
    destruct (loop_distinct _ _ _ _ Hq Hnd Hst) as (Hn & Hseen & Hsub & Hnds).
    destruct (loop_capacity k evts init st) as [Hn0 Hlen];
      [done | done | unfold len; simpl; lia | done |].
    split_and!; try done.
    - by rewrite Hseen, elem_of_list_to_set.
    - intros Hin. apply Hyfresh, list_elem_of_fmap_2. by apply Hsub. }
  assert (0 ≤ len its) as HN by (unfold len; lia).
  rewrite len_app. change (len [y]) with 1.
  apply elem_of_app in Hx as [Hx | ->%list_elem_of_singleton].
  - assert (x ≠ y) as Hxy.
    { intros ->. by apply Hyfresh, list_elem_of_fmap_2. }
    assert (0 < len its) as HN'.
    { destruct its; [by apply not_elem_of_nil in Hx | unfold len; simpl; lia]. }
    rewrite (expect_ext _ _
      (λ st, Qcmult (if decide (len its < k) then 1%Qc
                     else Qcdiv (Qc_of_Z (len its)) (Qc_of_Z (len its + 1)))
                    (if decide (x ∈ sample st) then 1%Qc else 0%Qc))).
    2:{ intros st Hst. destruct (Hinv st Hst) as (? & ? & Hn & ? & ? & ?).
        rewrite (body_accepted _ _ _ _ Hy), <- Hn.
        by apply expect_offer_old. }
    rewrite expect_scale, (IH its x Hq Hnd Hx).
    destruct (decide (len its < k)).
    + rewrite !Z.min_r by lia. rewrite Qc_of_Z_succ.
      apply Qc_ratio_full; [| rewrite <- Qc_of_Z_succ];
        apply Qc_of_Z_nonzero; lia.
    + rewrite !Z.min_l by lia. rewrite Qc_of_Z_succ.
      apply Qc_ratio_step; [| rewrite <- Qc_of_Z_succ];
        apply Qc_of_Z_nonzero; lia.
  - rewrite (expect_ext _ _
      (λ _, if decide (len its < k) then 1%Qc
            else Qcdiv (Qc_of_Z k) (Qc_of_Z (len its + 1)))).
    2:{ intros st Hst. destruct (Hinv st Hst) as (? & ? & Hn & ? & ? & ?).
        rewrite (body_accepted _ _ _ _ Hy), <- Hn.
        by apply expect_offer_new. }
    rewrite expect_loop_const;
      [| simpl; lia | by eapply qualifies_well_formed].
    destruct (decide (len its < k)).
    + rewrite Z.min_r by lia. apply Qc_ratio_one, Qc_of_Z_nonzero. lia.
    + by rewrite Z.min_l by lia.
Qed.

(** C2: on a stream of [N] qualifying messages with distinct uris and a
    capacity [0 ≤ k ≤ N], each of the [N] items is in the final sample with
    probability exactly [k / N], the draws of [random.randint] being uniform
    and independent; the same holds when the messages arrive in any other
    order. *)
Theorem uniform_inclusion (k : Z) (evts : list json) (its : list item)
    (x : item) :
  0 ≤ k → k ≤ len its →
  Forall2 qualifies evts its → NoDup (uri <$> its) → x ∈ its →
  prob (loop k init evts) (λ st, x ∈ sample st)
  = Qcdiv (Qc_of_Z k) (Qc_of_Z (len its)) ∧
  ∀ evts' its',
    its' ≡ₚ its → Forall2 qualifies evts' its' →
    prob (loop k init evts') (λ st, x ∈ sample st)
    = prob (loop k init evts) (λ st, x ∈ sample st).
Proof.
  intros Hk HkN Hq Hnd Hx.
  assert (prob (loop k init evts) (λ st, x ∈ sample st)
          = Qcdiv (Qc_of_Z k) (Qc_of_Z (len its))) as Hp.
  { rewrite (inclusion_probability k evts its x) by done.
    by rewrite Z.min_l by lia. }
  split; [done |]. intros evts' its' Hperm Hq'. rewrite Hp.
  rewrite (inclusion_probability k evts' its' x); try done.
  - unfold len. rewrite (Permutation_length Hperm). fold (len its).
    by rewrite Z.min_l by lia.
  - by rewrite Hperm.
  - by rewrite Hperm.
Qed.

Lemma uniform_inclusion_witness :
  prob (loop 1 init [post_a; post_b]) (λ st, item_a ∈ sample st)
  = Qcdiv (Qc_of_Z 1) (Qc_of_Z (len [item_a; item_b])).
Proof.
  apply (uniform_inclusion 1 [post_a; post_b] [item_a; item_b] item_a).
  - lia.
  - unfold len; simpl; lia.
  - by repeat constructor.
  - apply (bool_decide_unpack _). by vm_compute.
  - left.
Defined.

(** ** Running the enricher *)

Lemma run_http_bind {A B} srv (m : prog httpE A) (f : A → prog httpE B) w :
  run_http srv (m ≫= f) w
  = match run_http srv m w with
    | (inl e, w') => (inl e, w')
    | (inr a, w') => run_http srv (f a) w'
    end.
Proof.
  unfold mbind, prog_bind. revert w.
  induction m as [a | e | X op k IH]; intros w; simpl; [done | done |].
  destruct op; apply IH.
Qed.

Lemma run_calls_bind {S A B} (f : fetcher S) (m : prog callE A)
    (g : A → prog callE B) s log :
  run_calls f (m ≫= g) s log
  = match run_calls f m s log with
    | (inl e, s', log') => (inl e, s', log')
    | (inr a, s', log') => run_calls f (g a) s' log'
    end.
Proof.
  unfold mbind, prog_bind. revert s log.
  induction m as [a | e | X op k IH]; intros s log; simpl; [done | done |].
  destruct op. destruct (f s batch). apply IH.
Qed.

Lemma run_calls_lift {S A} (f : fetcher S) (r : result A) s log :
  run_calls f (lift r) s log = (r, s, log).
Proof. by destruct r. Qed.


Lemma py_min_nonneg x y : (0 ≤ x)%Qc → (0 ≤ y)%Qc → (0 ≤ py_min x y)%Qc.
Proof. intros. unfold py_min. by destruct (decide (y < x)%Qc). Qed.

Lemma run_sleep srv secs w :
  run_http srv (sleep secs) w
  = if decide (secs < 0)%Qc then (inl ValueError, w)
    else (inr tt, {| requests := requests w; sleeps := sleeps w ++ [secs] |}).
Proof. unfold sleep. by destruct (decide (secs < 0)%Qc). Qed.

(** The int [2 ** attempt] has a float up to the attempt 1023. *)
Lemma float_overflows_pow2 (attempt : nat) :
  float_overflows (2 ^ Z.of_nat attempt) = bool_decide (1024 ≤ attempt)%nat.
Proof.
  unfold float_overflows.
  assert (0 < 2 ^ Z.of_nat attempt) as Hpos by (apply Z.pow_pos_nonneg; lia).
  rewrite Z.abs_eq by lia.
  assert (2 ^ 1023 < 2 ^ 1024 - 2 ^ 970) as Hlo by (by vm_compute).
  assert (2 ^ 1024 - 2 ^ 970 ≤ 2 ^ 1024) as Hhi by (by vm_compute).
  destruct (decide (1024 ≤ attempt)%nat) as [Hge | Hlt].
  - rewrite bool_decide_eq_true_2 by done. apply Z.leb_le.
    etrans; [exact Hhi |]. apply Z.pow_le_mono_r; lia.
  - rewrite bool_decide_eq_false_2 by done. apply Z.leb_gt.
    eapply Z.le_lt_trans; [| exact Hlo]. apply Z.pow_le_mono_r; lia.
Qed.

Lemma backoff_delay_ok {E} base (attempt : nat) :
  (attempt < 1024)%nat →
  backoff_delay (E:=E) base attempt = Ret (base * 2 ^ attempt)%Qc.
Proof.
  intros Hlt. unfold backoff_delay. rewrite float_overflows_pow2.
  by rewrite bool_decide_eq_false_2 by lia.
Qed.

Lemma backoff_delay_overflow {E} base (attempt : nat) :
  (1024 ≤ attempt)%nat → backoff_delay (E:=E) base attempt = Raise OverflowError.
Proof.
  intros Hge. unfold backoff_delay. rewrite float_overflows_pow2.
  by rewrite bool_decide_eq_true_2 by lia.
Qed.

(** The delay is a value or the overflow, and has no other effect. *)
Lemma backoff_delay_cases {E} base (attempt : nat) :
  backoff_delay (E:=E) base attempt = Ret (base * 2 ^ attempt)%Qc ∨
  backoff_delay (E:=E) base attempt = Raise OverflowError.
Proof. unfold backoff_delay. destruct (float_overflows _); [by right | by left]. Qed.


Lemma Qc_nonneg_30 : (0 ≤ Qc_of_Z 30)%Qc.
Proof. rewrite <- Z2Qc_inj_0. by apply Z2Qc_inj_le. Qed.

Lemma backoff_nonneg base attempt : (0 ≤ base)%Qc → (0 ≤ backoff base attempt)%Qc.
Proof.
  intros Hb. unfold backoff. apply py_min_nonneg; [| apply Qc_nonneg_30].
  rewrite <- (Qcmult_0_l (2 ^ attempt)).
  apply Qcmult_le_compat_r; [done |]. by apply Qcpower_pos.
Qed.

Lemma wait_nonneg base attempt ra :
  (0 ≤ base)%Qc → header_ok ra → (0 ≤ wait base attempt ra)%Qc.
Proof.
  intros Hb Hra. destruct ra as [| secs |]; simpl in *; try done.
  - by apply backoff_nonneg.
  - apply py_min_nonneg; [done | apply Qc_nonneg_30].
Qed.

(** A retryable response within the budget: one request, one wait, and the
    next attempt. *)
Lemma attempts_retry srv uris retries timeout_s base attempt todo w
    status ra body :
  srv (length (requests w)) uris = Response status ra body →
  status ≠ 200 → retryable status = true → Z.of_nat attempt < retries →
  (attempt < 1024)%nat → (0 ≤ base)%Qc → header_ok ra →
  run_http srv (attempts uris retries timeout_s base (attempt :: todo)) w
  = run_http srv (attempts uris retries timeout_s base todo)
      {| requests := requests w ++ [uris];
         sleeps := sleeps w ++ [wait base attempt ra] |}.
Proof.
  intros Hsrv Hstatus Hretry Hlt Hfloat Hb Hra. cbn [attempts]. simpl.
  rewrite Hsrv.
  destruct (Z.eqb_spec status 200); [done |]. rewrite Hretry.
  pose proof (wait_nonneg base attempt ra Hb Hra) as Hw.
  destruct ra as [| secs |]; [| | done].
  - rewrite backoff_delay_ok by done. simpl.
    destruct (Z.ltb_spec (Z.of_nat attempt) retries); [| lia].
    rewrite run_http_bind, run_sleep. fold (backoff base attempt).
    simpl in Hw. rewrite decide_False by (by apply Qcle_not_lt). done.
  - simpl. destruct (Z.ltb_spec (Z.of_nat attempt) retries); [| lia].
    rewrite run_http_bind, run_sleep. simpl in Hw.
    rewrite decide_False by (by apply Qcle_not_lt). done.
Qed.


Lemma attempts_success srv uris retries timeout_s base attempt todo w ra body :
  srv (length (requests w)) uris = Response 200 ra body →
  run_http srv (attempts uris retries timeout_s base (attempt :: todo)) w
  = (py_get body "posts",
     {| requests := requests w ++ [uris]; sleeps := sleeps w |}).
Proof. intros Hsrv. simpl. rewrite Hsrv. simpl. by destruct (py_get body "posts"). Qed.






(** ** The retry policy of [get_batch] *)




(** ** The batches of [hydrate] *)

(** A call of [get_batch] in [hydrate]: the batch is asked for, an empty
    answer fails the assertion, the posts of any other are appended. *)
Lemma run_fetch {S} (f : fetcher S) batch corpus hydrated s log :
  run_calls f (fetch call_get_batch batch corpus hydrated) s log
  = (match (f s batch).1 with
     | inl e => inl e
     | inr r =>
         if truthy r then posts ← py_iter r; for_posts posts corpus hydrated
         else inl AssertionError
     end,
     (f s batch).2, log ++ [(batch, (f s batch).1)]).
Proof.
  unfold fetch, call_get_batch, trigger. simpl.
  destruct (f s batch) as [[e | r] s']; simpl; [done |].
  destruct (truthy r); simpl; [| done].
  destruct (py_iter r); simpl; [done |].
  apply run_calls_lift.
Qed.

(** One step of the [while] loop, run against a fetcher. *)
Lemma run_while_cons {S} (f : fetcher S) len_data d rest batch corpus
    hydrated s log :
  run_calls f (while_loop call_get_batch len_data (d :: rest) batch corpus
                          hydrated) s log
  = match
      (if len batch <? BATCH_SIZE
       then (inr (batch, corpus, hydrated), s, log)
       else
         match run_calls f (fetch call_get_batch batch corpus hydrated) s log
         with
         | (inl e, s', log') => (inl e, s', log')
         | (inr (corpus1, hydrated1), s', log') =>
             match print_progress (len_data - len (d :: rest)) (len_data - 1)
             with
             | inl e => (inl e, s', log')
             | inr _ => (inr ([], corpus1, hydrated1), s', log')
             end
         end)
    with
    | (inl e, s', log') => (inl e, s', log')
    | (inr (b, co, h), s', log') =>
        match py_get d "uri" with
        | inl e => (inl e, s', log')
        | inr u => run_calls f (while_loop call_get_batch len_data rest
                                           (b ++ [u]) co h) s' log'
        end
    end.
Proof.
  cbn [while_loop]. rewrite run_calls_bind.
  destruct (len batch <? BATCH_SIZE).
  - simpl. rewrite run_calls_bind, run_calls_lift. by destruct (py_get d "uri").
  - rewrite run_calls_bind.
    destruct (run_calls f (fetch call_get_batch batch corpus hydrated) s log)
      as [[[e | [corpus1 hydrated1]] s'] log']; [done |].
    rewrite run_calls_bind, run_calls_lift.
    destruct (print_progress _ _); [done |]. simpl.
    rewrite run_calls_bind, run_calls_lift. by destruct (py_get d "uri").
Qed.

(** The loop, when it returns, has asked for full batches only, and these
    and the batch it returns hold the uris read, in order. *)
Lemma while_loop_partition {S} (f : fetcher S) len_data rest :
  ∀ batch corpus hydrated s log batch' corpus' hydrated' s' log',
    len batch ≤ BATCH_SIZE →
    run_calls f (while_loop call_get_batch len_data rest batch corpus hydrated)
              s log
    = (inr (batch', corpus', hydrated'), s', log') →
    ∃ new us,
      log' = log ++ new ∧
      Forall (λ c : call, len c.1 = BATCH_SIZE) new ∧
      Forall2 (λ d u, py_get d "uri" = inr u) rest us ∧
      concat (fst <$> new) ++ batch' = batch ++ us ∧
      len batch' ≤ BATCH_SIZE ∧
      (batch ≠ [] ∨ rest ≠ [] → batch' ≠ []).
Proof.
  induction rest as [| d rest IH];
    intros batch corpus hydrated s log batch' corpus' hydrated' s' log' Hlen.
  { simpl. intros [= <- <- <- <- <-]. exists [], [].
    rewrite !app_nil_r. split_and!; try done. by intros [? | ?]. }
  rewrite run_while_cons.
  destruct (Z.ltb_spec (len batch) BATCH_SIZE) as [Hlt | Hge].
  - destruct (py_get d "uri") as [e | u] eqn:Hu; [done |].
    intros (new & us & -> & Hnew & Hus & Hcat & Hlen' & Hne)%IH.
    2:{ rewrite len_app. change (len [u]) with 1. lia. }
    exists new, (u :: us). split_and!; try done.
    + by constructor.
    + by rewrite Hcat, <- app_assoc.
    + intros _. apply Hne. left. by destruct batch.
  - rewrite run_fetch.
    destruct (f s batch) as [[e | r] s1]; simpl; [done |].
    destruct (truthy r); [| done].
    destruct (_ ≫= _) as [e | [corpus1 hydrated1]]; [done |].
    destruct (print_progress _ _) as [e | []]; [done |].
    destruct (py_get d "uri") as [e | u] eqn:Hu; [done |].
    intros (new & us & -> & Hnew & Hus & Hcat & Hlen' & Hne)%IH.
    2:{ unfold BATCH_SIZE, len. simpl. lia. }
    exists ((batch, inr r) :: new), (u :: us). split_and!; try done.
    + by rewrite <- app_assoc.
    + constructor; [simpl; lia | done].
    + by constructor.
    + rewrite fmap_cons. cbn [concat fst]. rewrite <- app_assoc, Hcat. done.
    + intros _. apply Hne. by left.
Qed.

Lemma full_batches_lengths (full : list (list json)) :
  Forall (λ b, len b = BATCH_SIZE) full →
  length <$> full = replicate (length full) 25%nat ∧
  length (concat full) = (25 * length full)%nat.
Proof.
  induction 1 as [| b full Hb _ [IH1 IH2]]; [done |].
  assert (length b = 25%nat) as Hb' by (unfold len, BATCH_SIZE in Hb; lia).
  split.
  - rewrite fmap_cons, IH1, Hb'. done.
  - simpl. rewrite length_app, IH2, Hb'. lia.
Qed.

(** Whatever [get_batch] answers, from whatever state: when [hydrate]
    returns, the batches it asked for are a partition of the uris read. *)
Lemma hydrate_calls_partition {S} (f : fetcher S) (data : list json)
    (out : list json * Z) (s s' : S) (log : list call) :
  run_calls f (hydrate_calls data) s [] = (inr out, s', log) →
  ∃ us,
    Forall2 (λ d u, py_get d "uri" = inr u) data us ∧
    concat (fst <$> log) = us ∧
    Forall (λ b, 0 < len b ≤ BATCH_SIZE) (fst <$> log) ∧
    (∀ full last, fst <$> log = full ++ [last] →
                  Forall (λ b, len b = BATCH_SIZE) full) ∧
    (length data = 103%nat →
     length <$> (fst <$> log) = [25; 25; 25; 25; 3]%nat).
Proof.
  unfold hydrate_calls, hydrate_with.
  rewrite run_calls_bind, run_calls_lift.
  destruct (print_progress 0 (len data - 1)) as [e | []]; [done |].
  rewrite run_calls_bind.
  destruct (run_calls f (while_loop _ _ _ _ _ _) s [])
    as [[[e | [[batch' corpus'] hydrated']] s1] log1] eqn:Hloop; [done |].
  apply while_loop_partition in Hloop
    as (new & us & -> & Hnew & Hus & Hcat & Hlen & Hne); [| done].
  simpl in Hcat. intros Hrun. exists us. split; [done |].
  assert (Forall (λ b, len b = BATCH_SIZE) (fst <$> new)) as Hfull.
  { apply Forall_fmap. eapply Forall_impl; [exact Hnew |]. done. }
  assert (Forall (λ b, 0 < len b ≤ BATCH_SIZE) (fst <$> new)) as Hfull'.
  { eapply Forall_impl; [exact Hfull |]. simpl. intros b ->. done. }
  destruct batch' as [| u0 batch'].
  - simpl in Hrun. injection Hrun as <- <- <-.
    rewrite app_nil_r in Hcat. simpl.
    assert (data = []) as ->.
    { destruct data; [done |]. destruct Hne; [by right | done]. }
    split_and!; try done.
    intros full' last E. rewrite E in Hfull.
    apply Forall_app in Hfull as [? _]. done.
  - set (last := u0 :: batch') in *.
    rewrite run_calls_bind, run_fetch in Hrun.
    destruct (f s1 last) as [[e | r] s2]; simpl in Hrun; [done |].
    destruct (truthy r); [| done].
    destruct (_ ≫= _) as [e | [corpus1 hydrated1]]; [done |].
    rewrite run_calls_bind, run_calls_lift in Hrun.
    destruct (print_progress _ _) as [e | []]; [done |].
    simpl in Hrun. injection Hrun as <- <- <-.
    assert (0 < len last) as Hpos by (unfold len, last; simpl; lia).
    rewrite fmap_app.
    change (fst <$> [(last, inr r : result json)]) with [last].
    split_and!.
    + by rewrite concat_app, <- Hcat; simpl; rewrite app_nil_r.
    + apply Forall_app. split; [done |]. by constructor.
    + intros full' last' [E _]%app_inj_tail. by rewrite <- E.
    + intros Hdata.
      destruct (full_batches_lengths _ Hfull) as [Hlens Hsum].
      apply (f_equal length) in Hcat. rewrite length_app, Hsum in Hcat.
      rewrite <- (Forall2_length _ _ _ Hus), Hdata in Hcat.
      assert (length last ≤ 25)%nat by (unfold len, BATCH_SIZE in Hlen; lia).
      assert (0 < length last)%nat by (unfold len in Hpos; lia).
      assert (length (fst <$> new) = 4%nat ∧ length last = 3%nat)
        as [E4 E3] by lia.
      rewrite fmap_app, Hlens, E4.
      change (length <$> [last]) with [length last]. by rewrite E3.
Qed.

(** ** [hydrate] against an endpoint is [hydrate] against its fetcher *)

Lemma run_http_lift {A} srv (r : result A) w : run_http srv (lift r) w = (r, w).
Proof. by destruct r. Qed.

Lemma fetch_simulation srv batch corpus hydrated w log :
  run_http srv (fetch get_batch_default batch corpus hydrated) w
  = (run_calls (http_fetcher srv) (fetch call_get_batch batch corpus hydrated)
               w log).1.
Proof.
  rewrite run_fetch. unfold fetch, http_fetcher. rewrite run_http_bind.
  destruct (run_http srv (get_batch_default batch) w) as [[e | r] w'];
    simpl; [done |].
  destruct (truthy r); simpl; [| done].
  rewrite run_http_bind, run_http_lift.
  destruct (py_iter r); simpl; [done |]. apply run_http_lift.
Qed.

Lemma while_loop_simulation srv len_data rest :
  ∀ batch corpus hydrated w log,
    run_http srv (while_loop get_batch_default len_data rest batch corpus
                             hydrated) w
    = (run_calls (http_fetcher srv)
                 (while_loop call_get_batch len_data rest batch corpus hydrated)
                 w log).1.
Proof.
  induction rest as [| d rest IH]; intros batch corpus hydrated w log;
    [done |].
  rewrite run_while_cons. cbn [while_loop]. rewrite run_http_bind.
  destruct (len batch <? BATCH_SIZE).
  - simpl. rewrite run_http_bind, run_http_lift.
    destruct (py_get d "uri"); [done |]. apply IH.
  - rewrite run_http_bind, (fetch_simulation srv _ _ _ w log).
    destruct (run_calls _ (fetch _ _ _ _) w log)
      as [[[e | [corpus1 hydrated1]] w1] log1]; simpl; [done |].
    rewrite run_http_bind, run_http_lift.
    destruct (print_progress _ _); simpl; [done |].
    rewrite run_http_bind, run_http_lift.
    destruct (py_get d "uri"); [done |]. apply IH.
Qed.

(** The run of [hydrate] against an endpoint has the result and the
    requests and waits of its run against the fetcher [get_batch] is. *)
Lemma hydrate_simulation srv data w :
  run_http srv (hydrate data) w
  = (run_calls (http_fetcher srv) (hydrate_calls data) w []).1.
Proof.
  unfold hydrate, hydrate_calls, hydrate_with.
  rewrite run_http_bind, run_calls_bind, run_http_lift, run_calls_lift.
  destruct (print_progress 0 (len data - 1)) as [e | []]; [done |].
  rewrite run_http_bind, run_calls_bind.
  rewrite (while_loop_simulation srv _ _ _ _ _ w []).
  destruct (run_calls _ (while_loop _ _ _ _ _ _) w [])
    as [[[e | [[batch corpus] hydrated]] w1] log1]; cbn [fst]; [done |].
  destruct batch as [| u0 batch]; [done |].
  rewrite run_http_bind, run_calls_bind.
  rewrite (fetch_simulation srv _ _ _ w1 log1).
  destruct (run_calls _ (fetch _ _ _ _) w1 log1)
    as [[[e | [corpus1 hydrated1]] w2] log2]; cbn [fst]; [done |].
  rewrite run_http_bind, run_calls_bind, run_http_lift, run_calls_lift.
  by destruct (print_progress _ _).
Qed.

(** ** [hydrate] on an empty batch result *)

Lemma settled_answered {A} (r : result A) log : Forall answered log → settled r log.
Proof. by left. Qed.

Lemma fetch_settled {S} (f : fetcher S) batch corpus hydrated s log r s' log' :
  Forall answered log →
  run_calls f (fetch call_get_batch batch corpus hydrated) s log = (r, s', log') →
  settled r log' ∧ (∀ a, r = inr a → Forall answered log').
Proof.
  intros Hlog. rewrite run_fetch.
  destruct (f s batch) as [[e | ans] s1]; simpl.
  - intros [= <- <- <-]. split; [| done].
    right. exists log, (batch, inl e). split_and!; try done.
    by intros (? & [=] & _).
  - destruct (truthy ans) eqn:Hans.
    + intros [= <- <- <-].
      assert (Forall answered (log ++ [(batch, inr ans)])).
      { apply Forall_app. split; [done |]. constructor; [| done]. by exists ans. }
      split; [by left | done].
    + intros [= <- <- <-]. split; [| done].
      right. exists log, (batch, inr ans). split_and!; try done.
      intros (ans' & [= <-] & Hans'). congruence.
Qed.

Lemma while_loop_settled {S} (f : fetcher S) len_data rest :
  ∀ batch corpus hydrated s log r s' log',
    Forall answered log →
    run_calls f (while_loop call_get_batch len_data rest batch corpus hydrated)
              s log = (r, s', log') →
    settled r log' ∧ (∀ a, r = inr a → Forall answered log').
Proof.
  induction rest as [| d rest IH];
    intros batch corpus hydrated s log r s' log' Hlog.
  { simpl. intros [= <- <- <-]. split; [by left | done]. }
  rewrite run_while_cons. destruct (len batch <? BATCH_SIZE).
  - destruct (py_get d "uri") as [e | u].
    + intros [= <- <- <-]. split; [by left | done].
    + by apply IH.
  - destruct (run_calls f (fetch _ _ _ _) s log)
      as [[[e | [corpus1 hydrated1]] s1] log1] eqn:Hfetch.
    + apply fetch_settled in Hfetch as [Hs _]; [| done].
      intros [= <- <- <-]. split; [| done].
      destruct Hs as [? | (init & c & -> & ? & ? & [= ->])]; [by left |].
      right. by exists init, c.
    + apply fetch_settled in Hfetch as [_ Hlog1]; [| done].
      specialize (Hlog1 _ eq_refl).
      destruct (print_progress _ _) as [e | []].
      { intros [= <- <- <-]. split; [by left | done]. }
      destruct (py_get d "uri") as [e | u].
      * intros [= <- <- <-]. split; [by left | done].
      * by apply IH.
Qed.

Lemma hydrate_settled {S} (f : fetcher S) data s r s' log :
  run_calls f (hydrate_calls data) s [] = (r, s', log) → settled r log.
Proof.
  unfold hydrate_calls, hydrate_with.
  rewrite run_calls_bind, run_calls_lift.
  destruct (print_progress 0 (len data - 1)) as [e | []].
  { intros [= <- <- <-]. by left. }
  rewrite run_calls_bind.
  destruct (run_calls f (while_loop _ _ _ _ _ _) s [])
    as [[[e | [[batch corpus] hydrated]] s1] log1] eqn:Hloop.
  - apply while_loop_settled in Hloop as [Hs _]; [| done].
    intros [= <- <- <-].
    destruct Hs as [? | (init & c & -> & ? & ? & [= ->])]; [by left |].
    right. by exists init, c.
  - apply while_loop_settled in Hloop as [_ Hlog1]; [| done].
    specialize (Hlog1 _ eq_refl).
    destruct batch as [| u0 batch].
    { intros [= <- <- <-]. by left. }
    cbv beta iota. rewrite run_calls_bind.
    destruct (run_calls f (fetch _ _ _ _) s1 log1)
      as [[[e | [corpus1 hydrated1]] s2] log2] eqn:Hfetch.
    + apply fetch_settled in Hfetch as [Hs _]; [| done].
      intros [= <- <- <-].
      destruct Hs as [? | (init & c & -> & ? & ? & [= ->])]; [by left |].
      right. by exists init, c.
    + apply fetch_settled in Hfetch as [_ Hlog2]; [| done].
      specialize (Hlog2 _ eq_refl).
      rewrite run_calls_bind, run_calls_lift.
      destruct (print_progress _ _) as [e | []]; intros [= <- <- <-]; by left.
Qed.

(** A call with an empty answer is the last, and the run raises there. *)
Lemma settled_empty {A} (r : result A) log i batch ans :
  settled r log → log !! i = Some (batch, inr ans) → truthy ans = false →
  r = inl AssertionError ∧ length log = S i.
Proof.
  intros [Hall | (init & c & -> & Hinit & Hc & ->)] Hi Hans.
  - eapply Forall_lookup_1 in Hall as (ans' & E & Hans'); [| done].
    simpl in *. congruence.
  - destruct (decide (i < length init)%nat) as [Hlt | Hge].
    + rewrite lookup_app_l in Hi by done.
      eapply Forall_lookup_1 in Hinit as (ans' & E & Hans'); [| done].
      simpl in *. congruence.
    + apply Nat.nlt_ge in Hge. rewrite lookup_app_r in Hi by done.
      pose proof (lookup_lt_Some _ _ _ Hi) as Hlt. simpl in Hlt.
      match type of Hi with
      | _ !! ?j = _ => assert (j = 0%nat) as Hj by lia; rewrite Hj in Hi
      end.
      injection Hi as ->. simpl. rewrite length_app. simpl.
      unfold call, result in *. split; [done | lia].
Qed.

(** C1 (as the code has it): a call of [get_batch] that returns an empty
    result fails the [assert(r)] that follows it in [hydrate]: the run of
    [hydrate] against the endpoint ends with [AssertionError], that call is
    the last, and no hydrated output is returned. *)
Theorem empty_batch_asserts (srv : endpoint) (data : list json) (i : nat)
    (batch : list json) (ans : json) :
  (run_calls (http_fetcher srv) (hydrate_calls data) fresh []).2 !! i
  = Some (batch, inr ans) →
  truthy ans = false →
  (run_http srv (hydrate data) fresh).1 = inl AssertionError ∧
  length (run_calls (http_fetcher srv) (hydrate_calls data) fresh []).2 = S i.
Proof.
  rewrite hydrate_simulation.
  destruct (run_calls (http_fetcher srv) (hydrate_calls data) fresh [])
    as [[r w] log] eqn:Hrun.
  simpl. intros Hi Hans. apply hydrate_settled in Hrun.
  by eapply settled_empty.
Qed.

Lemma empty_batch_asserts_witness :
  (run_http not_found_endpoint (hydrate (corpus_of 2)) fresh).1
  = inl AssertionError ∧
  length (run_calls (http_fetcher not_found_endpoint)
                    (hydrate_calls (corpus_of 2)) fresh []).2 = 1%nat.
Proof.
  apply (empty_batch_asserts not_found_endpoint (corpus_of 2) 0
           [uri_0; uri_1] (JArr [])); by vm_compute.
Defined.

(** C1 (as stated, refuted): against an endpoint that knows no post,
    [get_batch] returns the empty list for the batch of two uris, and
    [hydrate] on the two items raises [AssertionError]; when only the
    second batch comes back empty, [hydrate] raises as well, and the 25
    posts of the first batch are not returned. *)
Lemma empty_batch_aborts :
  (run_http not_found_endpoint (get_batch_default [uri_0; uri_1]) fresh).1
  = inr (JArr []) ∧
  (run_http not_found_endpoint (hydrate (corpus_of 2)) fresh).1
  = inl AssertionError ∧
  (run_http forgetful_endpoint (hydrate (corpus_of 26)) fresh).1
  = inl AssertionError ∧
  ¬ (∀ srv m, m ≠ 1%nat →
       ∃ out, (run_http srv (hydrate (corpus_of m)) fresh).1 = inr out).
Proof.
  split_and!; try by vm_compute.
  intros H. destruct (H not_found_endpoint 2%nat) as [out Hout]; [done |].
  by vm_compute in Hout.
Qed.

(** ** What [hydrate] returns *)

Lemma for_posts_app posts corpus hydrated corpus' hydrated' :
  for_posts posts corpus hydrated = inr (corpus', hydrated') →
  corpus' = corpus ++ posts ∧ hydrated' = hydrated + len posts.
Proof.
  revert corpus hydrated. induction posts as [| post posts IH];
    intros corpus hydrated; simpl.
  - intros [= <- <-]. rewrite app_nil_r. unfold len; simpl. split; [done | lia].
  - destruct (trimmed post); simpl; [done |].
    intros [-> ->]%IH. rewrite <- app_assoc. split; [done |].
    unfold len; simpl length. lia.
Qed.

Lemma fetch_corpus {S} (f : fetcher S) batch corpus hydrated s log
    corpus' hydrated' s' log' :
  run_calls f (fetch call_get_batch batch corpus hydrated) s log
  = (inr (corpus', hydrated'), s', log') →
  ∃ c, log' = log ++ [c] ∧ corpus' = corpus ++ posts_of c ∧
       hydrated' = hydrated + len (posts_of c).
Proof.
  rewrite run_fetch. unfold posts_of.
  destruct (f s batch) as [[e | ans] s1]; simpl; [done |].
  destruct (truthy ans); [| done].
  destruct (py_iter ans) as [e | posts] eqn:Hposts; simpl; [done |].
  intros [= Hfor <- <-]. apply for_posts_app in Hfor as [-> ->].
  exists (batch, inr ans). simpl. by rewrite Hposts.
Qed.

Lemma while_loop_corpus {S} (f : fetcher S) len_data rest :
  ∀ batch corpus hydrated s log batch' corpus' hydrated' s' log',
    run_calls f (while_loop call_get_batch len_data rest batch corpus hydrated)
              s log
    = (inr (batch', corpus', hydrated'), s', log') →
    ∃ new, log' = log ++ new ∧
           corpus' = corpus ++ concat (posts_of <$> new) ∧
           hydrated' = hydrated + len (concat (posts_of <$> new)).
Proof.
  induction rest as [| d rest IH];
    intros batch corpus hydrated s log batch' corpus' hydrated' s' log'.
  { simpl. intros [= <- <- <- <- <-]. exists []. simpl.
    rewrite !app_nil_r. split_and!; try done. unfold len; simpl; lia. }
  rewrite run_while_cons. destruct (len batch <? BATCH_SIZE).
  - destruct (py_get d "uri") as [e | u]; [done |]. apply IH.
  - destruct (run_calls f (fetch _ _ _ _) s log)
      as [[[e | [corpus1 hydrated1]] s1] log1] eqn:Hfetch; [done |].
    apply fetch_corpus in Hfetch as (c & -> & -> & ->).
    destruct (print_progress _ _) as [e | []]; [done |].
    destruct (py_get d "uri") as [e | u]; [done |].
    intros (new & -> & -> & ->)%IH. exists (c :: new).
    rewrite fmap_cons. cbn [concat]. rewrite len_app, <- !app_assoc.
    split_and!; try done. lia.
Qed.

(** When [hydrate] returns, its list holds the posts of the answers as
    they came, and its count is the length of the list. *)
Lemma hydrate_corpus {S} (f : fetcher S) data s out s' log :
  run_calls f (hydrate_calls data) s [] = (inr out, s', log) →
  out.1 = concat (posts_of <$> log) ∧ out.2 = len out.1.
Proof.
  unfold hydrate_calls, hydrate_with.
  rewrite run_calls_bind, run_calls_lift.
  destruct (print_progress 0 (len data - 1)) as [e | []]; [done |].
  rewrite run_calls_bind.
  destruct (run_calls f (while_loop _ _ _ _ _ _) s [])
    as [[[e | [[batch corpus] hydrated]] s1] log1] eqn:Hloop; [done |].
  apply while_loop_corpus in Hloop as (new & -> & -> & ->).
  destruct batch as [| u0 batch].
  { intros [= <- <- <-]. simpl. split; [done | lia]. }
  cbv beta iota. rewrite run_calls_bind.
  destruct (run_calls f (fetch _ _ _ _) s1 _)
    as [[[e | [corpus1 hydrated1]] s2] log2] eqn:Hfetch; [done |].
  apply fetch_corpus in Hfetch as (c & -> & -> & ->).
  rewrite run_calls_bind, run_calls_lift.
  destruct (print_progress _ _) as [e | []]; [done |].
  intros [= <- <- <-]. simpl.
  rewrite fmap_app, concat_app. simpl. rewrite app_nil_r.
  split; [done |]. rewrite len_app. lia.
Qed.

(** C8 (the code departs from it): against an endpoint that has a post for
    every uri, [hydrate] on two items returns the two posts as the API sent
    them, with [cid], [indexedAt] and the counters under [likeCount] and
    the like; the trimmed item built from a post is a different value, with
    the counters under [like_count] and the like, and is not what the
    document holds.  The count returned is the number of posts. *)
Theorem hydrated_data_is_raw :
  (run_http echo_endpoint (hydrate (corpus_of 2)) fresh).1
  = inr ([post_of uri_0; post_of uri_1], 2) ∧
  hydrated_document ([post_of uri_0; post_of uri_1], 2)
  = JObj [("total", JNum (Qc_of_Z 2));
          ("data", JArr [post_of uri_0; post_of uri_1])] ∧
  ∃ item, trimmed (post_of uri_0) = inr item ∧
          item ≠ post_of uri_0 ∧
          py_get item "like_count" = inr (JNum (Qc_of_Z 3)) ∧
          py_get (post_of uri_0) "like_count" = inr JNull ∧
          py_get (post_of uri_0) "likeCount" = inr (JNum (Qc_of_Z 3)) ∧
          py_get (post_of uri_0) "cid" = inr (JStr "bafy") ∧
          py_get item "cid" = inr JNull.
Proof.
  split; [by vm_compute |]. split; [done |].
  eexists. split; [reflexivity |]. split_and!; done.
Qed.

(** C9 (as the code has it): when [hydrate] returns, the batches it asked
    [get_batch] for, in order, are a partition of the uris of the input:
    their concatenation is the list of the uris in the input order, every
    batch but the last has exactly [BATCH_SIZE] uris and the last has
    between 1 and [BATCH_SIZE]; for 103 identities the batches have sizes
    [25, 25, 25, 25, 3]. *)
Theorem batch_partition (srv : endpoint) (data : list json)
    (out : list json * Z) (w : world) :
  run_http srv (hydrate data) fresh = (inr out, w) →
  ∃ us,
    Forall2 (λ d u, py_get d "uri" = inr u) data us ∧
    concat (batches srv data) = us ∧
    Forall (λ b, 0 < len b ≤ BATCH_SIZE) (batches srv data) ∧
    (∀ full last, batches srv data = full ++ [last] →
                  Forall (λ b, len b = BATCH_SIZE) full) ∧
    (length data = 103%nat →
     length <$> batches srv data = [25; 25; 25; 25; 3]%nat).
Proof.
  rewrite hydrate_simulation. unfold batches.
  destruct (run_calls (http_fetcher srv) (hydrate_calls data) fresh [])
    as [[r w'] log] eqn:Hrun.
  simpl. intros [= -> ->]. by eapply hydrate_calls_partition.
Qed.

Lemma batch_partition_witness :
  (∃ out w,
     run_http echo_endpoint (hydrate (corpus_of 103)) fresh = (inr out, w)) ∧
  length <$> batches echo_endpoint (corpus_of 103) = [25; 25; 25; 25; 3]%nat.
Proof.
  destruct (run_http echo_endpoint (hydrate (corpus_of 103)) fresh)
    as [[e | out] w] eqn:Hrun.
  { exfalso. vm_compute in Hrun. discriminate Hrun. }
  split; [by exists out, w |].
  destruct (batch_partition _ _ _ _ Hrun) as (us & _ & _ & _ & _ & H).
  by apply H.
Defined.

(** C9 (as stated, refuted): the batches are made one at a time, each
    looked up before the next is made, and [assert(r)] ends the run at a
    batch that comes back empty.  Against an endpoint that knows no post,
    [hydrate] on 103 items makes the first batch of 25 and raises
    [AssertionError]: one batch, not five, and on 26 items the batch made
    lacks the last uri.  On one item [hydrate] raises before it makes any
    batch. *)
Lemma batches_cut_short :
  (run_http not_found_endpoint (hydrate (corpus_of 103)) fresh).1
  = inl AssertionError ∧
  length <$> batches not_found_endpoint (corpus_of 103) = [25%nat] ∧
  batches echo_endpoint (corpus_of 1) = [] ∧
  ¬ (∀ srv data, length data = 103%nat →
       length <$> batches srv data = [25; 25; 25; 25; 3]%nat) ∧
  ¬ (∀ srv data us,
       Forall2 (λ d u, py_get d "uri" = inr u) data us →
       concat (batches srv data) = us).
Proof.
  split_and!; try by vm_compute.
  - intros H. specialize (H not_found_endpoint (corpus_of 103) eq_refl).
    by vm_compute in H.
  - intros H.
    specialize (H not_found_endpoint (corpus_of 26)
                  ((λ i, JStr ("at://did:plc:a/app.bsky.feed.post/"
                               +:+ pretty i)) <$> seq 0 26)).
    apply (f_equal length) in H.
    + by vm_compute in H.
    + apply Forall2_fmap, Forall_Forall2_diag, Forall_forall.
      by intros i _.
Qed.

(** * Further properties of the two scripts *)

(** ** The checks of the loop body *)

(** X1: a message whose commit is absent or is an object is rejected, with
    no exception and without its record being read, when the commit is
    absent or empty, and when its operation is not ["create"], whether the
    commit has a record or not. *)
Theorem rejected_before_record (evt : json) (ckvs : list (string * json)) :
  py_get_default evt "commit" (JObj []) = inr (JObj ckvs) →
  ckvs = [] ∨ default JNull (assoc "operation" ckvs) ≠ JStr "create" →
  candidate evt = inr None.
Proof.
  intros H Hrej. unfold candidate. rewrite H. cbn -[assoc truthy eq_str].
  destruct (truthy (JObj ckvs)) eqn:Htruthy; [| done].
  destruct Hrej as [-> | Hop]; [done |]. cbn -[assoc eq_str].
  destruct (default JNull (assoc "operation" ckvs)) as [| | | op | |];
    try done.
  cbn. destruct (String.eqb_spec op "create") as [-> | Hne]; done.
Qed.

Lemma rejected_before_record_witness :
  candidate (JObj [("did", JStr "did:plc:a");
                   ("commit", JObj [("operation", JStr "delete");
                                    ("collection", JStr "app.bsky.feed.post");
                                    ("rkey", JStr "3k")])])
  = inr None.
Proof.
  eapply rejected_before_record; [reflexivity |]. right. by vm_compute.
Defined.

Lemma existsb_eq_str l s :
  existsb (λ x, eq_str x s) l = true ↔ JStr s ∈ l.
Proof.
  rewrite existsb_exists. setoid_rewrite <- list_elem_of_In. split.
  - intros (x & Hx & Heq). destruct x; try done. simpl in Heq.
    apply String.eqb_eq in Heq as ->. done.
  - intros H. exists (JStr s). split; [done |]. simpl. apply String.eqb_refl.
Qed.

(** X2: a message whose commit has an object as record is rejected, with no
    exception, when the text of the record is absent, [None] or the empty
    string, when its langs are absent or [None], and when its langs are a
    list that does not hold ["en"]. *)
Theorem rejected_by_record (evt : json) (ckvs rkvs : list (string * json)) :
  py_get_default evt "commit" (JObj []) = inr (JObj ckvs) →
  assoc "record" ckvs = Some (JObj rkvs) →
  default JNull (assoc "text" rkvs) = JNull ∨
  default JNull (assoc "text" rkvs) = JStr "" ∨
  default JNull (assoc "langs" rkvs) = JNull ∨
  (∃ l, default JNull (assoc "langs" rkvs) = JArr l ∧ JStr "en" ∉ l) →
  candidate evt = inr None.
Proof.
  intros H Hrecord Hrej. unfold candidate. rewrite H.
  cbn -[assoc truthy eq_str]. rewrite Hrecord.
  destruct (truthy (JObj ckvs)); [| done]. cbn -[assoc eq_str].
  destruct (eq_str _ "create"); [| done]. cbn -[assoc eq_str].
  destruct Hrej as [-> | [-> | [Hlangs | (l & Hlangs & Hl)]]]; try done.
  - destruct (is_none _ || eq_str _ ""); [done |]. cbn -[assoc].
    by rewrite Hlangs.
  - destruct (is_none _ || eq_str _ ""); [done |]. cbn -[assoc].
    rewrite Hlangs. cbn.
    destruct (existsb _ l) eqn:E; [| done].
    by apply existsb_eq_str in E.
Qed.

Lemma rejected_by_record_witness :
  candidate
    (JObj [("did", JStr "did:plc:a");
           ("commit",
            JObj [("operation", JStr "create");
                  ("collection", JStr "app.bsky.feed.post");
                  ("rkey", JStr "3k");
                  ("record", JObj [("text", JStr "bonjour");
                                   ("langs", JArr [JStr "fr"])])])])
  = inr None.
Proof.
  eapply rejected_by_record; [reflexivity | reflexivity |].
  right. right. right. exists [JStr "fr"]. split; [reflexivity |].
  by apply (bool_decide_unpack _).
Defined.

(** X3: a message is accepted when its commit is an object with operation
    ["create"] and an object as record, the text of the record is neither
    absent nor the empty string, ["en"] is in its langs, and [did],
    [collection] and [rkey] are strings; the item holds the uri composed
    from them, [did], [rkey] and the record as it is.  The text need not be
    a string, and langs given as a string are searched for the substring. *)
Theorem accepted_when (evt : json) (ckvs rkvs : list (string * json))
    (text langs : json) (d c r : string) :
  py_get_default evt "commit" (JObj []) = inr (JObj ckvs) →
  assoc "operation" ckvs = Some (JStr "create") →
  assoc "record" ckvs = Some (JObj rkvs) →
  assoc "text" rkvs = Some text → text ≠ JNull → text ≠ JStr "" →
  assoc "langs" rkvs = Some langs → py_str_in "en" langs = inr true →
  py_get evt "did" = inr (JStr d) →
  assoc "collection" ckvs = Some (JStr c) →
  assoc "rkey" ckvs = Some (JStr r) →
  candidate evt
  = inr (Some {| uri := ("at://" ++ d ++ "/" ++ c ++ "/" ++ r)%string;
                 did := d; rkey := r; record := JObj rkvs |}).
Proof.
  intros H Hop Hrecord Htext Hnone Hempty Hlangs Hen Hdid Hc Hr.
  unfold candidate. rewrite H. cbn -[assoc truthy eq_str].
  rewrite Hrecord, Hop, Hc, Hr, Hdid.
  assert (truthy (JObj ckvs) = true) as -> by (by destruct ckvs).
  cbn -[assoc eq_str py_str_in]. rewrite Htext, Hlangs.
  cbn -[eq_str py_str_in].
  assert (is_none text || eq_str text "" = false) as ->.
  { destruct text as [| | | s | |]; try done. simpl.
    destruct (String.eqb_spec s ""); [congruence | done]. }
  assert (is_none langs = false) as -> by (by destruct langs).
  by rewrite Hen.
Qed.

Lemma accepted_when_witness :
  candidate
    (JObj [("did", JStr "did:plc:a");
           ("commit",
            JObj [("operation", JStr "create");
                  ("collection", JStr "app.bsky.feed.post");
                  ("rkey", JStr "3k");
                  ("record", JObj [("text", JNum (Qc_of_Z 7));
                                   ("langs", JStr "en-US")])])])
  = inr (Some {| uri := "at://did:plc:a/app.bsky.feed.post/3k";
                 did := "did:plc:a"; rkey := "3k";
                 record := JObj [("text", JNum (Qc_of_Z 7));
                                 ("langs", JStr "en-US")] |}).
Proof.
  apply (accepted_when _
           [("operation", JStr "create");
            ("collection", JStr "app.bsky.feed.post"); ("rkey", JStr "3k");
            ("record", JObj [("text", JNum (Qc_of_Z 7));
                             ("langs", JStr "en-US")])]
           [("text", JNum (Qc_of_Z 7)); ("langs", JStr "en-US")]
           (JNum (Qc_of_Z 7)) (JStr "en-US")
           "did:plc:a" "app.bsky.feed.post" "3k");
    try reflexivity; done.
Defined.

(** ** The loop as a whole *)

Lemma outcomes_bind_ext {A B} (m : prog randE A) (f g : A → prog randE B) :
  (∀ a, outcomes (f a) = outcomes (g a)) →
  outcomes (bind m f) = outcomes (bind m g).
Proof.
  intros Hfg. induction m as [a | e | X op k IH]; simpl; [done | done |].
  destruct op as [lo hi]. apply list_bind_ext; [| done]. intros r. apply IH.
Qed.

(** X4: rejected messages leave no trace: on messages whose checks return,
    the runs of the loop are those of the loop on the accepted messages
    alone, from any state. *)
Theorem rejected_leave_no_trace (k : Z) (st : state) (evts : list json) :
  Forall well_formed evts →
  outcomes (loop k st evts) = outcomes (loop k st (filter is_accepted evts)).
Proof.
  intros Hwf. revert st.
  induction Hwf as [| evt evts [c Hc] _ IH]; intros st; [done |].
  assert (is_accepted evt = match c with Some _ => true | None => false end)
    as Hacc.
  { unfold is_accepted, accepted_item. rewrite Hc. by destruct c. }
  rewrite filter_cons. destruct c as [it |].
  - rewrite decide_True by (rewrite Hacc; exact I).
    simpl. by apply outcomes_bind_ext.
  - rewrite decide_False by (rewrite Hacc; intros []).
    cbn [loop]. unfold body. rewrite Hc. simpl. apply IH.
Qed.

Lemma rejected_leave_no_trace_witness :
  outcomes (loop 1 init [JObj []; post_a; JObj [("commit", JObj [])]; post_b])
  = outcomes (loop 1 init [post_a; post_b]).
Proof.
  apply (rejected_leave_no_trace 1 init
           [JObj []; post_a; JObj [("commit", JObj [])]; post_b]).
  repeat constructor; eexists; reflexivity.
Defined.

(** X5: a message on which the checks raise ends the run: when the
    messages before it are well-formed, every run of the loop raises that
    exception, whatever was sampled before and whatever follows. *)
Theorem malformed_message_aborts (k : Z) (evts1 evts2 : list json)
    (evt : json) (e : exn) :
  Forall well_formed evts1 → candidate evt = inl e →
  outcomes (loop k init (evts1 ++ evt :: evts2)) ≠ [] ∧
  ∀ o, o ∈ outcomes (loop k init (evts1 ++ evt :: evts2)) → o = inl e.
Proof.
  intros Hwf He. split; [apply loop_outcomes_nonempty |].
  assert (0 ≤ n init) as Hn by done. revert Hn. generalize init.
  induction Hwf as [| evt1 evts1 [c Hc] Hwf IH]; intros st Hn o; simpl.
  - unfold body at 1. rewrite He. simpl.
    by intros ->%list_elem_of_singleton.
  - intros [(e' & -> & Hraise) | (st1 & Hst1 & Ho)]%elem_of_outcomes_bind.
    + exfalso. revert Hraise. unfold body. rewrite Hc. simpl.
      destruct c as [it |]; [by apply offer_never_raises |].
      apply never_raises_ret.
    + apply (IH st1); [| done]. apply body_yields in Hst1.
      destruct (accepted_item evt1); [| by subst].
      apply offer_yields in Hst1 as [[-> _] | (_ & _ & -> & _)]; lia.
Qed.

Lemma malformed_message_aborts_witness :
  outcomes (loop 1 init ([post_a; post_b] ++
                         create_without_record :: [post_a])) ≠ [] ∧
  Forall (λ o, o = inl AttributeError)
    (outcomes (loop 1 init ([post_a; post_b] ++
                            create_without_record :: [post_a]))).
Proof.
  destruct (malformed_message_aborts 1 [post_a; post_b] [post_a]
              create_without_record AttributeError) as [Hne Hall].
  - repeat constructor; eexists; reflexivity.
  - reflexivity.
  - split; [exact Hne |]. apply Forall_forall. exact Hall.
Defined.

(** X6: in every run, on any messages, the sample holds no two items with
    the same uri, and each of its items is an accepted item whose uri is
    among the seen uris. *)
Theorem sample_distinct (k : Z) (evts : list json) (st : state) :
  yields (loop k init evts) st →
  NoDup (uri <$> sample st) ∧
  ∀ x, x ∈ sample st → x ∈ accepted evts ∧ uri x ∈ seen_uris st.
Proof.
  pose (R := λ (its : list item) (s : state),
          NoDup (uri <$> sample s) ∧
          ∀ x, x ∈ sample s → x ∈ its ∧ uri x ∈ seen_uris s).
  intros H. change (R ([] ++ accepted evts) st).
  revert H. apply (loop_invariant R k).
  - clear. unfold R. intros its s it s' [Hnd Hin] Hs'.
    apply offer_yields in Hs' as [[-> _] | (Hnew & Hseen & _ & Hs')].
    { split; [done |]. intros x [? ?]%Hin. split; [| done].
      apply elem_of_app. by left. }
    assert (uri it ∉ uri <$> sample s) as Hfresh.
    { intros (x & Hx & [_ ?]%Hin)%list_elem_of_fmap. congruence. }
    rewrite Hseen.
    destruct Hs' as [[_ ->] | (_ & r & _ & [[_ ->] | [_ ->]])].
    + split.
      * rewrite fmap_app. apply NoDup_app. split_and!; [done | | apply NoDup_singleton].
        intros u Hu ->%list_elem_of_singleton. done.
      * intros x [[? ?]%Hin | ->%list_elem_of_singleton]%elem_of_app.
        -- split; [apply elem_of_app; by left | set_solver].
        -- split; [apply elem_of_app; right; left | set_solver].
    + split.
      * rewrite list_fmap_insert. by apply NoDup_insert_fresh.
      * intros x [-> | [? ?]%Hin]%elem_of_insert_inv.
        -- split; [apply elem_of_app; right; left | set_solver].
        -- split; [apply elem_of_app; by left | set_solver].
    + split; [done |]. intros x [? ?]%Hin.
      split; [apply elem_of_app; by left | set_solver].
  - split; [apply NoDup_nil_2 |]. by intros x ?%not_elem_of_nil.
Qed.

Lemma sample_distinct_witness :
  yields (loop 1 init [post_a; post_b; post_a]) kept_a ∧
  NoDup (uri <$> sample kept_a).
Proof.
  assert (yields (loop 1 init [post_a; post_b; post_a]) kept_a) as Hy
    by (apply yields_decide; by vm_compute).
  split; [exact Hy |].
  by destruct (sample_distinct 1 [post_a; post_b; post_a] kept_a Hy).
Defined.

Lemma loop_short (k : Z) (evts : list json) (its : list item) :
  Forall2 qualifies evts its →
  ∀ st,
    NoDup (uri <$> its) → (∀ x, x ∈ its → uri x ∉ seen_uris st) →
    len (sample st) + len its ≤ k →
    outcomes (loop k st evts)
    = [inr {| sample := sample st ++ its;
              seen_uris := list_to_set (uri <$> its) ∪ seen_uris st;
              n := n st + len its |}].
Proof.
  induction 1 as [| evt it evts its Hq _ IH]; intros st Hnd Hfresh Hlen.
  - simpl. rewrite app_nil_r, (left_id_L ∅ (∪)).
    replace (n st + len []) with (n st) by (unfold len; simpl; lia).
    by destruct st.
  - rewrite fmap_cons in Hnd. apply NoDup_cons in Hnd as [Hit Hnd].
    replace (len (it :: its)) with (1 + len its) in *
      by (unfold len; simpl length; lia).
    cbn [loop]. rewrite (body_accepted _ _ _ _ Hq). unfold offer.
    rewrite bool_decide_eq_false_2 by (apply Hfresh; left).
    destruct (Z.ltb_spec (len (sample st)) k); [| unfold len in *; lia].
    simpl. rewrite IH; simpl.
    + do 2 f_equal. rewrite <- app_assoc. f_equal; [| lia].
      apply set_eq. intros u. set_solver.
    + done.
    + intros x Hx. apply not_elem_of_union. split; [| apply Hfresh; by right].
      intros E%elem_of_singleton. apply Hit. rewrite <- E.
      by apply list_elem_of_fmap_2.
    + rewrite len_app. change (len [it]) with 1. lia.
Qed.

(** X7: while the stream is short nothing is drawn: on at most [k]
    qualifying messages with distinct uris the loop has a single run, and
    its sample is their items in the order of arrival. *)
Theorem short_stream_kept (k : Z) (evts : list json) (its : list item) :
  Forall2 qualifies evts its → NoDup (uri <$> its) → len its ≤ k →
  outcomes (loop k init evts)
  = [inr {| sample := its; seen_uris := list_to_set (uri <$> its);
            n := len its |}].
Proof.
  intros Hq Hnd Hlen. rewrite (loop_short k evts its Hq init); simpl.
  - by rewrite (right_id_L ∅ (∪)).
  - done.
  - intros x _. apply not_elem_of_empty.
  - unfold len in *. simpl. lia.
Qed.

Lemma short_stream_kept_witness :
  outcomes (loop 2 init [post_a; post_b])
  = [inr {| sample := [item_a; item_b];
            seen_uris := list_to_set (uri <$> [item_a; item_b]);
            n := len [item_a; item_b] |}].
Proof.
  apply (short_stream_kept 2 [post_a; post_b] [item_a; item_b]).
  - by repeat constructor.
  - apply (bool_decide_unpack _). by vm_compute.
  - unfold len; simpl; lia.
Defined.

(** ** [reservoir_sample] and the sample document *)

Lemma yields_lift {A} (r : result A) (a : A) :
  yields (lift (E:=randE) r) a ↔ r = inr a.
Proof.
  destruct r as [e | a']; simpl.
  - split; [by intros ?%yields_raise | done].
  - rewrite yields_ret. naive_solver.
Qed.

(** What [print_progress] does, by the size of its arguments. *)
Lemma print_progress_ok iteration total :
  Z.abs total < 2 ^ 1024 - 2 ^ 970 → Z.abs iteration < 2 ^ 1024 - 2 ^ 970 →
  total ≠ 0 → print_progress iteration total = inr tt.
Proof.
  unfold print_progress, float_overflows. generalize (2 ^ 1024 - 2 ^ 970).
  intros T Ht Hi H0. rewrite !(proj2 (Z.leb_gt _ _)) by done.
  by destruct (Z.eqb_spec total 0).
Qed.

Lemma print_progress_overflow iteration total :
  2 ^ 1024 - 2 ^ 970 ≤ Z.abs total →
  print_progress iteration total = inl OverflowError.
Proof.
  unfold print_progress, float_overflows. generalize (2 ^ 1024 - 2 ^ 970).
  intros T Ht. by rewrite (proj2 (Z.leb_le _ _)) by done.
Qed.

(** A sample that [reservoir_sample] returns is the sample of a run of the
    loop, on the messages if the duration is positive and on none if not. *)
Lemma reservoir_sample_yields duration_s k evts smp :
  yields (reservoir_sample duration_s k evts) smp →
  ∃ st, yields (loop k init (if 0 <? duration_s then evts else [])) st ∧
        smp = sample st.
Proof.
  unfold reservoir_sample. rewrite yields_bind. intros (_ & _ & H).
  revert H. rewrite yields_bind. intros (st & Hst & H). exists st.
  split; [done |]. revert H. rewrite yields_bind.
  intros (_ & _ & H). by apply yields_ret in H.
Qed.

(** X8: [reservoir_sample] with a duration of 0 raises
    [ZeroDivisionError], and with a duration of [2^1024 - 2^970] or more,
    or of [-(2^1024 - 2^970)] or less, [OverflowError], each in the first
    call of [print_progress] and whatever the messages; with another
    negative duration it returns the empty sample; with another positive
    one it returns the sample of a run of the loop. *)
Theorem reservoir_sample_duration (k : Z) (evts : list json) :
  outcomes (reservoir_sample 0 k evts) = [inl ZeroDivisionError] ∧
  (∀ duration_s, 2 ^ 1024 - 2 ^ 970 ≤ Z.abs duration_s →
     outcomes (reservoir_sample duration_s k evts) = [inl OverflowError]) ∧
  (∀ duration_s, - (2 ^ 1024 - 2 ^ 970) < duration_s < 0 →
     outcomes (reservoir_sample duration_s k evts) = [inr []]) ∧
  (∀ duration_s smp, 0 < duration_s < 2 ^ 1024 - 2 ^ 970 →
     yields (reservoir_sample duration_s k evts) smp ↔
     ∃ st, yields (loop k init evts) st ∧ smp = sample st).
Proof.
  split_and!.
  - done.
  - intros d Hd. unfold reservoir_sample.
    by rewrite (print_progress_overflow 0 d).
  - intros d Hd. unfold reservoir_sample.
    rewrite !print_progress_ok by lia.
    destruct (Z.ltb_spec 0 d); [lia |]. done.
  - intros d smp Hd. split.
    + intros (st & Hst & ->)%reservoir_sample_yields.
      destruct (Z.ltb_spec 0 d); [| lia]. by exists st.
    + intros (st & Hst & ->). unfold reservoir_sample.
      rewrite !print_progress_ok by lia.
      destruct (Z.ltb_spec 0 d); [| lia]. simpl.
      rewrite yields_bind. exists st. split; [done |]. by apply yields_ret.
Qed.

(** X9: the sample document records the size asked for, not the size
    obtained: for a capacity [k ≥ 0] and a positive duration, every
    document [__main__] writes has [k] as total, and as data the items of a
    sample of [min(N, k)] items, [N] the number of accepted, deduplicated
    items; with [N < k] the total exceeds the length of the data. *)
Theorem sample_document_total (duration_s k : Z) (evts : list json)
    (doc : json) :
  0 ≤ k → 0 < duration_s →
  yields (scraper_main duration_s k evts) doc →
  ∃ smp, doc = JObj [("total", JNum (Qc_of_Z k));
                     ("data", JArr (item_json <$> smp))] ∧
         len smp = Z.min (distinct_accepted evts) k.
Proof.
  intros Hk Hd. unfold scraper_main. rewrite yields_bind.
  intros (smp & Hsmp & <-%yields_ret). exists smp. split; [done |].
  apply reservoir_sample_yields in Hsmp as (st & Hst & ->).
  destruct (Z.ltb_spec 0 duration_s); [| lia].
  destruct (loop_init_count _ _ _ Hst) as (_ & _ & <-).
  by destruct (loop_capacity k evts init st) as [_ ->];
    [| | unfold len; simpl; lia | |].
Qed.

Lemma sample_document_total_witness :
  yields (scraper_main 30 5 [post_a; post_b; post_a])
         (sample_document 5 [item_a; item_b]) ∧
  len [item_a; item_b] = Z.min (distinct_accepted [post_a; post_b; post_a]) 5.
Proof.
  assert (yields (scraper_main 30 5 [post_a; post_b; post_a])
                 (sample_document 5 [item_a; item_b])) as Hy.
  { eapply yields_head. reflexivity. }
  split; [exact Hy |].
  destruct (sample_document_total 30 5 [post_a; post_b; post_a] _
              ltac:(lia) ltac:(lia) Hy) as (smp & Hdoc & Hlen).
  by vm_compute.
Defined.

Lemma reservoir_sample_duration_witness :
  outcomes (reservoir_sample (2 ^ 1024) 1 [post_a]) = [inl OverflowError] ∧
  outcomes (reservoir_sample (-1) 1 [post_a]) = [inr []] ∧
  (yields (reservoir_sample 30 1 [post_a]) [item_a] ↔
   ∃ st, yields (loop 1 init [post_a]) st ∧ [item_a] = sample st).
Proof.
  destruct (reservoir_sample_duration 1 [post_a]) as (_ & Hbig & Hneg & Hpos).
  split_and!.
  - apply Hbig. by vm_compute.
  - apply Hneg. split; by vm_compute.
  - apply Hpos. split; by vm_compute.
Defined.

(** ** The progress bar *)

Lemma length_str_append (s1 s2 : string) :
  String.length (s1 ++ s2)%string = (String.length s1 + String.length s2)%nat.
Proof. induction s1 as [| c s1 IH]; simpl; [done | by rewrite IH]. Qed.

Lemma length_str_copies (s : string) (m : nat) :
  String.length (str_copies s m) = (m * String.length s)%nat.
Proof.
  induction m as [| m IH]; simpl; [done |].
  by rewrite length_str_append, IH.
Qed.

(** X10: for a positive total, an iteration between 0 and the total and a
    length that is not negative, the filled part of the bar of
    [print_progress] is between 0 and the length, it is nothing at
    iteration 0 and the whole at the total, and with a one-character fill
    the bar has exactly [length] characters. *)
Theorem progress_bar_length (iteration total length : Z) (fill : string) :
  0 < total → 0 ≤ iteration ≤ total → 0 ≤ length →
  String.length fill = 1%nat →
  0 ≤ filled_length iteration total length ≤ length ∧
  filled_length 0 total length = 0 ∧
  filled_length total total length = length ∧
  Z.of_nat (String.length (progress_bar iteration total length fill)) = length.
Proof.
  intros Htotal Hit Hlen Hfill. unfold filled_length.
  assert (0 ≤ (length * iteration) `div` total ≤ length) as Hfilled.
  { split.
    - apply Z.div_pos; [nia | lia].
    - apply Z.div_le_upper_bound; [lia | nia]. }
  split; [done |]. split_and!.
  - by rewrite Z.mul_0_r.
  - apply Z.div_mul. lia.
  - unfold progress_bar, py_str_mul, filled_length.
    rewrite length_str_append, !length_str_copies, Hfill. simpl String.length.
    lia.
Qed.

Lemma progress_bar_length_witness :
  filled_length 7 30 50 = 11 ∧
  Z.of_nat (String.length (progress_bar 7 30 50 "#")) = 50.
Proof.
  split; [reflexivity |].
  by destruct (progress_bar_length 7 30 50 "#") as (_ & _ & _ & ?);
    [lia | lia | lia | reflexivity |].
Defined.

(** ** From the sample document to the batches *)

Lemma read_uris (smp : list item) (us : list json) :
  Forall2 (λ d u, py_get d "uri" = inr u) (item_json <$> smp) us →
  us = (λ it, JStr (uri it)) <$> smp.
Proof.
  revert us. induction smp as [| it smp IH]; intros us H.
  - by apply Forall2_nil_inv_l in H.
  - rewrite fmap_cons in H.
    apply Forall2_cons_inv_l in H as (u & us' & Hu & H & ->).
    rewrite fmap_cons, <- (IH us' H). f_equal.
    cbn in Hu. congruence.
Qed.

(** X11: the two scripts compose: when [hydrate] returns on the data of a
    sample document, the batches it asked [get_batch] for hold, in order,
    the uris of the sampled items, each as a string. *)
Theorem hydrate_reads_sample (srv : endpoint) (smp : list item)
    (out : list json * Z) (w : world) :
  run_http srv (hydrate (item_json <$> smp)) fresh = (inr out, w) →
  concat (batches srv (item_json <$> smp)) = (λ it, JStr (uri it)) <$> smp.
Proof.
  rewrite hydrate_simulation. unfold batches.
  destruct (run_calls (http_fetcher srv) (hydrate_calls _) fresh [])
    as [[r w'] log] eqn:Hrun.
  simpl. intros [= -> ->].
  apply hydrate_calls_partition in Hrun as (us & Hus & Hcat & _).
  rewrite Hcat. by apply read_uris.
Qed.

Lemma hydrate_reads_sample_witness :
  (∃ out w, run_http echo_endpoint (hydrate (item_json <$> [item_a; item_b]))
                     fresh = (inr out, w)) ∧
  concat (batches echo_endpoint (item_json <$> [item_a; item_b]))
  = [JStr (uri item_a); JStr (uri item_b)].
Proof.
  destruct (run_http echo_endpoint (hydrate (item_json <$> [item_a; item_b]))
                     fresh) as [[e | out] w] eqn:Hrun.
  { exfalso. vm_compute in Hrun. discriminate Hrun. }
  split; [by exists out, w |].
  exact (hydrate_reads_sample _ _ _ _ Hrun).
Defined.

(** ** More on [get_batch] *)

(** The attempts from [a] on, [a + cnt = retries + 1]: each sends the same
    request once, and a call that returns has waited once less than it
    has sent. *)
Lemma attempts_counts srv uris retries timeout_s base :
  ∀ (cnt a : nat) w r w',
    run_http srv (attempts uris retries timeout_s base (seq a cnt)) w = (r, w') →
    Z.of_nat (a + cnt) = retries + 1 →
    ∃ (m : nat) waits,
      requests w' = requests w ++ replicate m uris ∧
      sleeps w' = sleeps w ++ waits ∧
      (m ≤ cnt)%nat ∧ (cnt ≠ 0%nat → 1 ≤ m)%nat ∧
      (∀ x, r = inr x → cnt ≠ 0%nat → S (length waits) = m).
Proof.
  induction cnt as [| cnt IH]; intros a w r w'; simpl.
  { intros [= <- <-] _. exists 0%nat, []. rewrite !app_nil_r. done. }
  intros Hrun Hlen.
  set (w1 := {| requests := requests w ++ [uris]; sleeps := sleeps w |}) in *.
  assert (∃ (m : nat) waits,
            requests w1 = requests w ++ replicate m uris ∧
            sleeps w1 = sleeps w ++ waits ∧
            (m ≤ S cnt)%nat ∧ (S cnt ≠ 0%nat → 1 ≤ m)%nat ∧
            (∀ x : json, S cnt ≠ 0%nat → S (length waits) = m)) as Hstop.
  { exists 1%nat, []. simpl. rewrite app_nil_r. split_and!; try done. lia. }
  assert (∀ s, Z.of_nat a < retries →
               run_http srv
                 (_ ← sleep (py_min s (Qc_of_Z 30));
                  attempts uris retries timeout_s base (seq (S a) cnt)) w1
               = (r, w') →
               ∃ (m : nat) waits,
                 requests w' = requests w ++ replicate m uris ∧
                 sleeps w' = sleeps w ++ waits ∧
                 (m ≤ S cnt)%nat ∧ (S cnt ≠ 0%nat → 1 ≤ m)%nat ∧
                 (∀ x, r = inr x → S cnt ≠ 0%nat → S (length waits) = m))
    as Hsleep.
  { intros s Ha. rewrite run_http_bind, run_sleep.
    destruct (decide (py_min s (Qc_of_Z 30) < 0)%Qc).
    - intros [= <- <-]. destruct Hstop as (m & waits & ? & ? & ? & ? & ?).
      exists m, waits. split_and!; try done.
    - intros (m & waits & Hreq & Hsl & Hm & Hpos & Hret)%IH; [| lia].
      exists (S m), (py_min s (Qc_of_Z 30) :: waits). simpl in *.
      rewrite Hreq, Hsl, <- !app_assoc. split_and!; try done; try lia.
      intros x Hx _. simpl. f_equal. apply (Hret x Hx). lia. }
  assert (∀ x : result json, (x, w1) = (r, w') →
               ∃ (m : nat) waits,
                 requests w' = requests w ++ replicate m uris ∧
                 sleeps w' = sleeps w ++ waits ∧
                 (m ≤ S cnt)%nat ∧ (S cnt ≠ 0%nat → 1 ≤ m)%nat ∧
                 (∀ x, r = inr x → S cnt ≠ 0%nat → S (length waits) = m))
    as Hret.
  { intros x [= <- <-]. destruct Hstop as (m & waits & ? & ? & ? & ? & ?).
    exists m, waits. split_and!; try done. intros; eauto. }
  revert Hrun.
  destruct (srv (length (requests w)) uris) as [status ra body |].
  - destruct (status =? 200).
    + destruct (py_get body "posts"); simpl; apply Hret.
    + destruct (retryable status); [| apply Hret].
      destruct ra as [| secs |].
      * destruct (backoff_delay_cases (E:=httpE) base a) as [-> | ->];
          simpl; [| apply Hret].
        destruct (Z.ltb_spec (Z.of_nat a) retries);
          [by apply Hsleep | apply Hret].
      * simpl. destruct (Z.ltb_spec (Z.of_nat a) retries);
          [by apply Hsleep | apply Hret].
      * simpl. apply Hret.
  - destruct (Z.ltb_spec (Z.of_nat a) retries); [| apply Hret].
    destruct (backoff_delay_cases (E:=httpE) base a) as [-> | ->];
      simpl; [by apply Hsleep | apply Hret].
Qed.

(** X12: a call of [get_batch] sends between 1 and [retries + 1] requests,
    all for the uris it was given, and none at all when [retries] is
    negative, in which case it returns the empty list; when it returns, it
    has waited exactly once between two requests. *)
Theorem get_batch_requests srv (uris : list json) (retries timeout_s : Z)
    (base : Qc) (w w' : world) (r : result json) :
  run_http srv (get_batch uris retries timeout_s base) w = (r, w') →
  ∃ (m : nat) waits,
    requests w' = requests w ++ replicate m uris ∧
    sleeps w' = sleeps w ++ waits ∧
    Z.of_nat m ≤ Z.max 0 (retries + 1) ∧
    (0 ≤ retries → (1 ≤ m)%nat) ∧
    (retries < 0 → r = inr (JArr [])) ∧
    (∀ x, r = inr x → 0 ≤ retries → S (length waits) = m).
Proof.
  unfold get_batch. intros Hrun.
  destruct (Z.lt_ge_cases retries 0) as [Hneg | Hpos].
  - replace (Z.to_nat (retries + 1)) with 0%nat in Hrun by lia.
    simpl in Hrun. injection Hrun as <- <-.
    exists 0%nat, []. rewrite !app_nil_r. split_and!; try done; lia.
  - apply attempts_counts in Hrun
      as (m & waits & Hreq & Hsl & Hm & Hone & Hret); [| lia].
    exists m, waits. split_and!; try done; try lia.
    intros x Hx _. apply (Hret x Hx). lia.
Qed.

Lemma get_batch_requests_witness :
  ∃ (m : nat) waits,
    requests (run_http flaky_endpoint (get_batch_default [uri_0]) fresh).2
    = requests fresh ++ replicate m [uri_0] ∧
    sleeps (run_http flaky_endpoint (get_batch_default [uri_0]) fresh).2
    = sleeps fresh ++ waits ∧
    (1 ≤ m)%nat.
Proof.
  destruct (run_http flaky_endpoint (get_batch_default [uri_0]) fresh)
    as [r w'] eqn:Hrun.
  destruct (get_batch_requests _ _ _ _ _ _ _ _ Hrun)
    as (m & waits & Hreq & Hsl & _ & Hone & _).
  exists m, waits. split_and!; [done | done |]. by apply Hone.
Defined.

Lemma retryable_not_200 status : retryable status = true → status ≠ 200.
Proof. by intros H ->. Qed.

(** The last attempt on a retryable response gives up without waiting. *)
Lemma attempts_last srv uris retries timeout_s base attempt todo w
    status ra body :
  srv (length (requests w)) uris = Response status ra body →
  retryable status = true → ra ≠ RetryAfterOther →
  retries ≤ Z.of_nat attempt → (attempt < 1024)%nat →
  run_http srv (attempts uris retries timeout_s base (attempt :: todo)) w
  = (inr (JArr []),
     {| requests := requests w ++ [uris]; sleeps := sleeps w |}).
Proof.
  intros Hsrv Hretry Hra Hlast Hfloat. simpl. rewrite Hsrv.
  destruct (Z.eqb_spec status 200) as [-> |]; [done |]. rewrite Hretry.
  destruct ra; [rewrite backoff_delay_ok by done | | done]; simpl;
    by destruct (Z.ltb_spec (Z.of_nat attempt) retries); [lia |].
Qed.

(** A failure of the transport: wait the backoff and try again, or give
    up at the last attempt. *)
Lemma attempts_exception srv uris retries timeout_s base attempt todo w :
  srv (length (requests w)) uris = RequestException → (0 ≤ base)%Qc →
  (attempt < 1024)%nat →
  run_http srv (attempts uris retries timeout_s base (attempt :: todo)) w
  = if Z.of_nat attempt <? retries
    then run_http srv (attempts uris retries timeout_s base todo)
           {| requests := requests w ++ [uris];
              sleeps := sleeps w ++ [backoff base attempt] |}
    else (inr (JArr []),
          {| requests := requests w ++ [uris]; sleeps := sleeps w |}).
Proof.
  intros Hsrv Hb Hfloat. simpl. rewrite Hsrv.
  destruct (Z.of_nat attempt <? retries); [| done].
  rewrite backoff_delay_ok by done. simpl.
  rewrite run_http_bind, run_sleep. fold (backoff base attempt).
  rewrite decide_False; [done |].
  apply Qcle_not_lt. by apply backoff_nonneg.
Qed.

Lemma attempts_exhausted srv uris retries timeout_s base :
  retries < 1024 → (0 ≤ base)%Qc → (∀ i, asks_retry (srv i uris)) →
  ∀ (cnt a : nat) w,
    Z.of_nat (a + cnt) = retries + 1 → cnt ≠ 0%nat →
    ∃ waits,
      run_http srv (attempts uris retries timeout_s base (seq a cnt)) w
      = (inr (JArr []),
         {| requests := requests w ++ replicate cnt uris;
            sleeps := sleeps w ++ waits |}) ∧
      S (length waits) = cnt.
Proof.
  intros Hfloat Hb Hsrv.
  induction cnt as [| cnt IH]; intros a w Hlen Hcnt; [done |].
  simpl seq. pose proof (Hsrv (length (requests w))) as Hrep.
  destruct (srv (length (requests w)) uris) as [status ra body |] eqn:Erep.
  - destruct Hrep as [Hretry Hra].
    destruct (Z.lt_ge_cases (Z.of_nat a) retries) as [Hlt | Hge].
    + rewrite (attempts_retry _ _ _ _ _ _ _ _ status ra body);
        try done; [| by apply retryable_not_200 | lia].
      destruct (IH (S a) {| requests := requests w ++ [uris];
                            sleeps := sleeps w ++ [wait base a ra] |})
        as (waits & -> & Hwaits); [lia | lia |].
      exists (wait base a ra :: waits). simpl.
      rewrite <- !app_assoc. split; [done | lia].
    + assert (cnt = 0%nat) as -> by lia.
      rewrite (attempts_last _ _ _ _ _ _ _ _ status ra body); try done.
      * exists []. by rewrite app_nil_r.
      * by destruct ra.
      * lia.
  - rewrite attempts_exception by (done || lia).
    destruct (Z.ltb_spec (Z.of_nat a) retries) as [Hlt | Hge].
    + destruct (IH (S a) {| requests := requests w ++ [uris];
                            sleeps := sleeps w ++ [backoff base a] |})
        as (waits & -> & Hwaits); [lia | lia |].
      exists (backoff base a :: waits). simpl.
      rewrite <- !app_assoc. split; [done | lia].
    + assert (cnt = 0%nat) as -> by lia.
      exists []. by rewrite app_nil_r.
Qed.

(** X13: when every reply asks for a retry (a retryable status with no
    [Retry-After] or one that is a number of seconds not negative, or a
    failure of the transport), [get_batch] with [0 ≤ retries < 1024] and a
    base delay that is not negative returns the empty list after exactly
    [retries + 1] requests and [retries] waits; it does not raise. *)
Theorem get_batch_exhausted srv (uris : list json) (retries timeout_s : Z)
    (base : Qc) (w : world) :
  0 ≤ retries < 1024 → (0 ≤ base)%Qc → (∀ i, asks_retry (srv i uris)) →
  ∃ waits,
    run_http srv (get_batch uris retries timeout_s base) w
    = (inr (JArr []),
       {| requests := requests w ++ replicate (Z.to_nat (retries + 1)) uris;
          sleeps := sleeps w ++ waits |}) ∧
    Z.of_nat (length waits) = retries.
Proof.
  intros Hretries Hb Hsrv. unfold get_batch.
  destruct (attempts_exhausted srv uris retries timeout_s base
              ltac:(lia) Hb Hsrv (Z.to_nat (retries + 1)) 0%nat w)
    as (waits & Hrun & Hwaits); [lia | lia |].
  exists waits. split; [done | lia].
Qed.

Lemma get_batch_exhausted_witness :
  ∃ waits,
    run_http (λ _ _, RequestException) (get_batch_default [uri_0]) fresh
    = (inr (JArr []),
       {| requests := requests fresh ++ replicate 5 [uri_0];
          sleeps := sleeps fresh ++ waits |}) ∧
    Z.of_nat (length waits) = 4.
Proof.
  apply (get_batch_exhausted (λ _ _, RequestException) [uri_0]
           default_retries default_timeout_s default_base_backoff fresh);
    done.
Defined.

(** The attempts up to the attempt 1024, on retryable responses without
    [Retry-After]: each waits its backoff, and the attempt 1024 raises. *)
Lemma attempts_overflow srv uris retries timeout_s base :
  1024 ≤ retries → (0 ≤ base)%Qc →
  (∀ i, ∃ status body, srv i uris = Response status NoRetryAfter body ∧
                       retryable status = true) →
  ∀ (cnt a : nat) todo w,
    (a + cnt = 1024)%nat →
    ∃ waits,
      run_http srv (attempts uris retries timeout_s base
                             (seq a cnt ++ 1024%nat :: todo)) w
      = (inl OverflowError,
         {| requests := requests w ++ replicate (S cnt) uris;
            sleeps := sleeps w ++ waits |}) ∧
      length waits = cnt.
Proof.
  intros Hretries Hb Hsrv.
  induction cnt as [| cnt IH]; intros a todo w Hlen.
  - destruct (Hsrv (length (requests w))) as (status & body & Hrep & Hretry).
    exists []. split; [| done]. simpl. rewrite Hrep.
    destruct (Z.eqb_spec status 200) as [-> |]; [done |]. rewrite Hretry.
    rewrite backoff_delay_overflow by lia. by rewrite app_nil_r.
  - destruct (Hsrv (length (requests w))) as (status & body & Hrep & Hretry).
    simpl seq. rewrite <- app_comm_cons.
    rewrite (attempts_retry _ _ _ _ _ _ _ _ status NoRetryAfter body);
      try done; [| by apply retryable_not_200 | lia | lia].
    destruct (IH (S a) todo
                {| requests := requests w ++ [uris];
                   sleeps := sleeps w ++ [wait base a NoRetryAfter] |})
      as (waits & -> & Hwaits); [lia |].
    exists (wait base a NoRetryAfter :: waits). simpl.
    rewrite <- !app_assoc. split; [done | lia].
Qed.

(** X23: the backoff of the attempt 1024 cannot be computed: against
    retryable responses without [Retry-After], [get_batch] with
    [retries ≥ 1024] and a base delay that is not negative raises
    [OverflowError], after exactly 1025 requests and 1024 waits; the
    conversion of [2 ** 1024] to a float fails before [attempt < retries]
    is looked at, so also when 1024 is the last attempt. *)
Theorem get_batch_overflow srv (uris : list json) (retries timeout_s : Z)
    (base : Qc) (w : world) :
  1024 ≤ retries → (0 ≤ base)%Qc →
  (∀ i, ∃ status body, srv i uris = Response status NoRetryAfter body ∧
                       retryable status = true) →
  ∃ waits,
    run_http srv (get_batch uris retries timeout_s base) w
    = (inl OverflowError,
       {| requests := requests w ++ replicate 1025 uris;
          sleeps := sleeps w ++ waits |}) ∧
    length waits = 1024%nat.
Proof.
  intros Hretries Hb Hsrv. unfold get_batch.
  assert (seq 0 (Z.to_nat (retries + 1))
          = seq 0 1024 ++ 1024%nat :: seq 1025 (Z.to_nat (retries - 1024)))
    as ->.
  { replace (Z.to_nat (retries + 1))
      with (1024 + S (Z.to_nat (retries - 1024)))%nat by lia.
    rewrite seq_app. f_equal. }
  destruct (attempts_overflow srv uris retries timeout_s base Hretries Hb Hsrv
              1024%nat 0%nat (seq 1025 (Z.to_nat (retries - 1024))) w eq_refl)
    as (waits & Hrun & Hlen).
  exists waits. split; [exact Hrun | exact Hlen].
Qed.

Lemma get_batch_overflow_witness :
  ∃ waits,
    run_http (λ _ _, Response 429 NoRetryAfter JNull)
             (get_batch [uri_0] 1024 30 default_base_backoff) fresh
    = (inl OverflowError,
       {| requests := requests fresh ++ replicate 1025 [uri_0];
          sleeps := sleeps fresh ++ waits |}) ∧
    length waits = 1024%nat.
Proof.
  apply (get_batch_overflow (λ _ _, Response 429 NoRetryAfter JNull) [uri_0]
           1024 30 default_base_backoff fresh); [done | done |].
  intros i. by exists 429, JNull.
Defined.

(** X14: on a response 200 [get_batch] with [retries ≥ 0] returns at once,
    after one request and no wait, what the body has under ["posts"]:
    [None] when the body is an object without that key, and it raises
    [AttributeError] when the body is not an object. *)
Theorem get_batch_success srv (uris : list json) (retries timeout_s : Z)
    (base : Qc) (w : world) ra (body : json) :
  0 ≤ retries →
  srv (length (requests w)) uris = Response 200 ra body →
  run_http srv (get_batch uris retries timeout_s base) w
  = (py_get body "posts",
     {| requests := requests w ++ [uris]; sleeps := sleeps w |}) ∧
  (∀ kvs, body = JObj kvs → assoc "posts" kvs = None →
          py_get body "posts" = inr JNull) ∧
  ((∀ kvs, body ≠ JObj kvs) → py_get body "posts" = inl AttributeError).
Proof.
  intros Hretries Hsrv. split_and!.
  - unfold get_batch.
    replace (Z.to_nat (retries + 1)) with (S (Z.to_nat retries)) by lia.
    simpl seq. by apply attempts_success with (ra := ra).
  - intros kvs -> Hposts. unfold py_get, py_get_default. by rewrite Hposts.
  - intros Hbody. destruct body; try done. by destruct (Hbody kvs).
Qed.

Lemma get_batch_success_witness :
  run_http (λ _ _, Response 200 NoRetryAfter (JObj [])) (get_batch_default [uri_0])
           fresh
  = (inr JNull, {| requests := [[uri_0]]; sleeps := [] |}).
Proof.
  destruct (get_batch_success (λ _ _, Response 200 NoRetryAfter (JObj []))
              [uri_0] default_retries default_timeout_s default_base_backoff
              fresh NoRetryAfter (JObj [])) as (Hrun & Hnone & _);
    [done | done |].
  unfold get_batch_default. rewrite Hrun. by rewrite (Hnone []).
Defined.

(** X15: a [Retry-After] that [get_batch] cannot use: on a retryable
    status, a header that is not a number makes [get_batch] raise
    [ValueError] after one request, even at its last attempt; a negative
    number of seconds makes it raise [ValueError] when it has retries left,
    in [time.sleep], and return the empty list when it has none. *)
Theorem retry_after_unusable srv (uris : list json) (retries timeout_s : Z)
    (base : Qc) (w : world) (status : Z) (body : json) :
  0 ≤ retries → retryable status = true →
  let w1 := {| requests := requests w ++ [uris]; sleeps := sleeps w |} in
  (srv (length (requests w)) uris = Response status RetryAfterOther body →
   run_http srv (get_batch uris retries timeout_s base) w
   = (inl ValueError, w1)) ∧
  (∀ secs, (secs < 0)%Qc →
     srv (length (requests w)) uris
     = Response status (RetryAfterSeconds secs) body →
     run_http srv (get_batch uris retries timeout_s base) w
     = (if decide (0 < retries) then inl ValueError else inr (JArr []), w1)).
Proof.
  intros Hretries Hretry w1. unfold get_batch.
  replace (Z.to_nat (retries + 1)) with (S (Z.to_nat retries)) by lia.
  simpl seq. pose proof (retryable_not_200 _ Hretry) as H200. split.
  - intros Hsrv. simpl. rewrite Hsrv.
    destruct (Z.eqb_spec status 200); [done |]. by rewrite Hretry.
  - intros secs Hsecs Hsrv. simpl. rewrite Hsrv.
    destruct (Z.eqb_spec status 200); [done |]. rewrite Hretry. simpl.
    change (Z.of_nat 0) with 0. destruct (Z.ltb_spec 0 retries).
    + rewrite decide_True by done. rewrite run_http_bind, run_sleep.
      assert (py_min secs (Qc_of_Z 30) = secs) as ->.
      { unfold py_min. rewrite decide_False; [done |].
        apply Qcle_not_lt. apply Qclt_le_weak.
        eapply Qclt_le_trans; [exact Hsecs | apply Qc_nonneg_30]. }
      by rewrite decide_True by done.
    + by rewrite decide_False by lia.
Qed.

Lemma retry_after_unusable_witness :
  run_http (λ _ _, Response 429 RetryAfterOther JNull)
           (get_batch [uri_0] 0 30 default_base_backoff) fresh
  = (inl ValueError, {| requests := [[uri_0]]; sleeps := [] |}).
Proof.
  destruct (retry_after_unusable (λ _ _, Response 429 RetryAfterOther JNull)
              [uri_0] 0 30 default_base_backoff fresh 429 JNull)
    as [H _]; [done | done |].
  by apply H.
Defined.

(** ** More on [hydrate] *)

(** X16: when [hydrate] returns, its count is the length of its list, and
    the list is made of the posts of the answers of [get_batch], batch
    after batch, each as it came; the document written has that count as
    total. *)
Theorem hydrate_total (srv : endpoint) (data : list json)
    (out : list json * Z) (w : world) :
  run_http srv (hydrate data) fresh = (inr out, w) →
  out.2 = len out.1 ∧
  out.1 = concat (posts_of <$>
                    (run_calls (http_fetcher srv) (hydrate_calls data)
                               fresh []).2) ∧
  hydrated_document out
  = JObj [("total", JNum (Qc_of_Z (len out.1))); ("data", JArr out.1)].
Proof.
  rewrite hydrate_simulation.
  destruct (run_calls (http_fetcher srv) (hydrate_calls data) fresh [])
    as [[r w'] log] eqn:Hrun.
  simpl. intros [= -> ->].
  apply hydrate_corpus in Hrun as [Hcorpus Hcount].
  split_and!; [done | done |]. unfold hydrated_document. by rewrite Hcount.
Qed.

Lemma hydrate_total_witness :
  (∃ out w, run_http echo_endpoint (hydrate (corpus_of 30)) fresh
            = (inr out, w) ∧ out.2 = len out.1) ∧
  (run_http echo_endpoint (hydrate (corpus_of 30)) fresh).1
  = inr (post_of <$> ((λ i, JStr ("at://did:plc:a/app.bsky.feed.post/"
                                  +:+ pretty i)) <$> seq 0 30), 30).
Proof.
  destruct (run_http echo_endpoint (hydrate (corpus_of 30)) fresh)
    as [[e | out] w] eqn:Hrun.
  { exfalso. vm_compute in Hrun. discriminate Hrun. }
  split.
  - exists out, w. split; [done |].
    by destruct (hydrate_total _ _ _ _ Hrun) as [? _].
  - vm_compute in Hrun. injection Hrun as <- _. by vm_compute.
Defined.

(** X17: on an empty list [hydrate] returns the empty list and the count
    0 and sends nothing; on a list of one item it raises
    [ZeroDivisionError], in its first call of [print_progress], before it
    reads the item or sends anything: whatever the endpoint, the item and
    what was sent before. *)
Theorem hydrate_small_inputs (srv : endpoint) (w : world) :
  run_http srv (hydrate []) w = (inr ([], 0), w) ∧
  ∀ d, run_http srv (hydrate [d]) w = (inl ZeroDivisionError, w).
Proof. done. Qed.

(** X18: when [hydrate] returns on [m] items it has called [get_batch]
    [⌈m / 25⌉] times. *)
Theorem batch_count (srv : endpoint) (data : list json)
    (out : list json * Z) (w : world) :
  run_http srv (hydrate data) fresh = (inr out, w) →
  Z.of_nat (length (batches srv data)) = (len data + 24) `div` 25.
Proof.
  rewrite hydrate_simulation. unfold batches.
  destruct (run_calls (http_fetcher srv) (hydrate_calls data) fresh [])
    as [[r w'] log] eqn:Hrun.
  simpl. intros [= -> ->].
  apply hydrate_calls_partition in Hrun
    as (us & Hus & Hcat & Hsized & Hfull & _).
  apply Forall2_length in Hus. unfold len. rewrite Hus, <- Hcat.
  destruct (fst <$> log) as [| b bs _] using rev_ind; [done |].
  specialize (Hfull bs b eq_refl).
  apply Forall_app in Hsized as [_ Hb]. apply Forall_cons in Hb as [Hb _].
  destruct (full_batches_lengths bs Hfull) as [_ Hsum].
  rewrite concat_app, !length_app, Hsum.
  change (concat [b]) with (b ++ []). rewrite app_nil_r.
  change (length [b]) with 1%nat.
  unfold len, BATCH_SIZE in Hb.
  apply (Z.div_unique _ 25 _ (Z.of_nat (length b) - 1)); lia.
Qed.

Lemma batch_count_witness :
  (∃ out w,
     run_http echo_endpoint (hydrate (corpus_of 103)) fresh = (inr out, w)) ∧
  Z.of_nat (length (batches echo_endpoint (corpus_of 103))) = 5.
Proof.
  destruct (run_http echo_endpoint (hydrate (corpus_of 103)) fresh)
    as [[e | out] w] eqn:Hrun.
  { exfalso. vm_compute in Hrun. discriminate Hrun. }
  split; [by exists out, w |].
  by rewrite (batch_count _ _ _ _ Hrun).
Defined.

(** X19: when [__main__] of the enricher gets to its end on a sample
    document whose total is an int, as the sampler writes it, the document
    it wrote has as total the number of posts in its data, and the count it
    reports as missing is the total of the sample document, the size once
    asked of the sampler, less the number of posts: it is reported when
    positive, whatever the number of uris that were looked up; on a
    document without total, [TypeError] is raised, after the document was
    written. *)
Theorem hydrate_main_report (srv : endpoint) (total : option Z)
    (data : list json) (doc : json) (rep : result (option Z)) (w : world) :
  run_http srv (hydrate_main total data) fresh = (inr (doc, rep), w) →
  ∃ out,
    run_http srv (hydrate data) fresh = (inr out, w) ∧
    doc = JObj [("total", JNum (Qc_of_Z (len out.1))); ("data", JArr out.1)] ∧
    (∀ t : Z, total = Some t →
       rep = inr (if decide (len out.1 < t)
                  then Some (t - len out.1) else None)) ∧
    (total = None → rep = inl TypeError).
Proof.
  unfold hydrate_main. rewrite run_http_bind.
  destruct (run_http srv (hydrate data) fresh) as [[e | out] w'] eqn:Hrun;
    [done |].
  simpl. intros [= <- <- <-]. exists out. split; [done |].
  rewrite hydrate_simulation in Hrun.
  destruct (run_calls (http_fetcher srv) (hydrate_calls data) fresh [])
    as [[r w''] log] eqn:Hcalls.
  simpl in Hrun. injection Hrun as -> ->.
  apply hydrate_corpus in Hcalls as [_ Hcount].
  split_and!.
  - unfold hydrated_document. by rewrite Hcount.
  - intros t ->. unfold report_missing. simpl. rewrite Hcount.
    destruct (decide (len out.1 < t)) as [Hlt | Hge].
    + by rewrite decide_True by lia.
    + by rewrite decide_False by lia.
  - by intros ->.
Qed.

Lemma hydrate_main_report_witness :
  ((run_http echo_endpoint (hydrate_main (Some 100) (corpus_of 30)) fresh).1
   = inr (hydrated_document
            (post_of <$> ((λ i, JStr ("at://did:plc:a/app.bsky.feed.post/"
                                      +:+ pretty i)) <$> seq 0 30), 30),
          inr (Some 70))).
Proof.
  destruct (run_http echo_endpoint (hydrate_main (Some 100) (corpus_of 30))
                     fresh)
    as [[e | [doc rep]] w] eqn:Hrun.
  { exfalso. vm_compute in Hrun. discriminate Hrun. }
  destruct (hydrate_main_report _ _ _ _ _ _ Hrun)
    as (out & Hout & -> & Hrep & _).
  rewrite (Hrep 100 eq_refl).
  vm_compute in Hout. injection Hout as <- _. simpl. by vm_compute.
Defined.

(** ** The size of the batches, in every run *)

Lemma while_loop_bounded {S} (f : fetcher S) (Q : S → Prop) len_data rest :
  (∀ s b, batch_sized b → Q s → Q (f s b).2) →
  ∀ batch corpus hydrated s log r s' log',
    len batch ≤ BATCH_SIZE → Q s → Forall batch_sized (fst <$> log) →
    run_calls f (while_loop call_get_batch len_data rest batch corpus hydrated)
              s log = (r, s', log') →
    Q s' ∧ Forall batch_sized (fst <$> log').
Proof.
  intros Hf. induction rest as [| d rest IH];
    intros batch corpus hydrated s log r s' log' Hlen HQ Hlog.
  { simpl. by intros [= <- <- <-]. }
  rewrite run_while_cons.
  destruct (Z.ltb_spec (len batch) BATCH_SIZE) as [Hlt | Hge].
  - destruct (py_get d "uri") as [e | u]; [by intros [= <- <- <-] |].
    apply IH; try done. rewrite len_app. change (len [u]) with 1. lia.
  - rewrite run_fetch.
    assert (batch_sized batch) as Hbatch by (unfold batch_sized, BATCH_SIZE in *; lia).
    assert (Forall batch_sized (fst <$> log ++ [(batch, (f s batch).1)]))
      as Hlog1.
    { rewrite fmap_app. apply Forall_app. split; [done |]. by constructor. }
    pose proof (Hf s batch Hbatch HQ) as HQ1.
    destruct (match (f s batch).1 with inl _ => _ | inr _ => _ end)
      as [e | [corpus1 hydrated1]]; [by intros [= <- <- <-] |].
    destruct (print_progress _ _) as [e | []]; [by intros [= <- <- <-] |].
    destruct (py_get d "uri") as [e | u]; [by intros [= <- <- <-] |].
    apply IH; try done; unfold BATCH_SIZE, len; simpl; lia.
Qed.

Lemma hydrate_bounded {S} (f : fetcher S) (Q : S → Prop) data s r s' log :
  (∀ s b, batch_sized b → Q s → Q (f s b).2) → Q s →
  run_calls f (hydrate_calls data) s [] = (r, s', log) →
  Q s' ∧ Forall batch_sized (fst <$> log).
Proof.
  intros Hf HQ. unfold hydrate_calls, hydrate_with.
  rewrite run_calls_bind, run_calls_lift.
  destruct (print_progress 0 (len data - 1)) as [e | []].
  { by intros [= <- <- <-]. }
  rewrite run_calls_bind.
  destruct (run_calls f (while_loop _ _ _ _ _ _) s [])
    as [[[e | [[batch corpus] hydrated]] s1] log1] eqn:Hloop.
  - apply (while_loop_bounded f Q) in Hloop as [? ?]; try done.
    by intros [= <- <- <-].
  - pose proof Hloop as Hpart.
    apply while_loop_partition in Hpart
      as (new & us & _ & _ & _ & _ & Hlen & _); [| done].
    apply (while_loop_bounded f Q) in Hloop as [HQ1 Hlog1]; try done.
    destruct batch as [| u0 batch]; [by intros [= <- <- <-] |].
    cbv beta iota. rewrite run_calls_bind, run_fetch.
    assert (batch_sized (u0 :: batch)) as Hbatch.
    { split; [unfold len; simpl; lia | done]. }
    assert (Forall batch_sized
              (fst <$> log1 ++ [(u0 :: batch, (f s1 (u0 :: batch)).1)]))
      as Hlog2.
    { rewrite fmap_app. apply Forall_app. split; [done |]. by constructor. }
    pose proof (Hf s1 _ Hbatch HQ1) as HQ2.
    destruct (match (f s1 (u0 :: batch)).1 with inl _ => _ | inr _ => _ end)
      as [e | [corpus1 hydrated1]]; [by intros [= <- <- <-] |].
    rewrite run_calls_bind, run_calls_lift.
    by destruct (print_progress _ _) as [e | []]; intros [= <- <- <-].
Qed.

(** X20: in every run of [hydrate], whether it returns or raises, each
    call of [get_batch] is for at least 1 and at most [BATCH_SIZE] uris,
    and so is each request sent to the endpoint. *)
Theorem requests_bounded (srv : endpoint) (data : list json) :
  Forall batch_sized (batches srv data) ∧
  Forall batch_sized (requests (run_http srv (hydrate data) fresh).2).
Proof.
  rewrite hydrate_simulation. unfold batches.
  destruct (run_calls (http_fetcher srv) (hydrate_calls data) fresh [])
    as [[r w] log] eqn:Hrun.
  simpl.
  apply (hydrate_bounded _ (λ w, Forall batch_sized (requests w))) in Hrun
    as [? ?]; [done | | by constructor].
  clear. intros w b Hb Hw. unfold http_fetcher, get_batch_default, get_batch.
  destruct (run_http srv _ w) as [r w'] eqn:Hrun. simpl.
  apply attempts_counts in Hrun as (m & waits & -> & _); [| done].
  apply Forall_app. split; [done |]. by apply Forall_replicate.
Qed.

(** ** The loop over the posts of an answer *)

Lemma trimmed_object kvs : ∃ item, trimmed (JObj kvs) = inr item.
Proof. unfold trimmed. simpl. eauto. Qed.

Lemma trimmed_not_object post : ¬ is_object post → trimmed post = inl AttributeError.
Proof. intros H. destruct post; try done. destruct H. by eexists. Qed.

(** X21: the loop [for post in r] of [hydrate] appends every post as it
    is and counts it when all the posts are objects; a post that is not an
    object makes it raise [AttributeError], from the item that is built
    from the post and left unused. *)
Theorem for_posts_objects (posts corpus : list json) (hydrated : Z) :
  (Forall is_object posts →
   for_posts posts corpus hydrated
   = inr (corpus ++ posts, hydrated + len posts)) ∧
  (¬ Forall is_object posts →
   for_posts posts corpus hydrated = inl AttributeError).
Proof.
  revert corpus hydrated.
  induction posts as [| post posts IH]; intros corpus hydrated.
  - split; [| by intros []].
    intros _. simpl. rewrite app_nil_r. do 2 f_equal. unfold len; simpl; lia.
  - destruct (IH (corpus ++ [post]) (hydrated + 1)) as [IHall IHnot].
    replace (len (post :: posts)) with (1 + len posts)
      by (unfold len; simpl length; lia).
    split.
    + intros [[kvs ->] Hposts]%Forall_cons. cbn [for_posts].
      destruct (trimmed_object kvs) as [item ->]. cbn [mbind result_bind].
      rewrite (IHall Hposts), <- app_assoc. do 2 f_equal. lia.
    + intros Hnot. cbn [for_posts].
      destruct post as [| | | | | kvs]; try done.
      destruct (trimmed_object kvs) as [item ->]. cbn [mbind result_bind].
      apply IHnot. intros Hposts. apply Hnot. constructor; [by eexists | done].
Qed.

Lemma for_posts_objects_witness :
  for_posts [post_of uri_0; post_of uri_1] [] 0
  = inr ([] ++ [post_of uri_0; post_of uri_1],
         0 + len [post_of uri_0; post_of uri_1]) ∧
  for_posts [post_of uri_0; JStr "post"] [] 0 = inl AttributeError.
Proof.
  split.
  - apply for_posts_objects. repeat constructor; by eexists.
  - apply for_posts_objects.
    intros [_ [[kvs [=]] _]%Forall_cons]%Forall_cons.
Defined.

(** ** A capacity that is not positive *)

(** X22: with a capacity [k ≤ 0] the sample stays empty in every run, on
    any messages, while the accepted uris are counted and remembered all
    the same. *)
Theorem nonpositive_capacity (k : Z) (evts : list json) (st : state) :
  k ≤ 0 → yields (loop k init evts) st →
  sample st = [] ∧ n st = distinct_accepted evts.
Proof.
  intros Hk H. split; [| by destruct (loop_init_count _ _ _ H) as (_ & _ & ?)].
  revert H. change (sample st = [])
    with ((λ (_ : list item) (s : state), sample s = [])
            ([] ++ accepted evts) st).
  apply loop_invariant; [| done].
  intros _ s it s' Hs Hs'.
  apply offer_yields in Hs'
    as [[-> _] | (_ & _ & _ & [[Hlt _] | (_ & r & Hr & [[Hrk _] | [_ ->]])])];
    try done.
  - rewrite Hs in Hlt. unfold len in Hlt. simpl in Hlt. lia.
  - lia.
Qed.

Lemma nonpositive_capacity_witness :
  yields (loop 0 init [post_a; post_b])
         {| sample := [];
            seen_uris := {[uri item_b]} ∪ ({[uri item_a]} ∪ ∅); n := 2 |} ∧
  distinct_accepted [post_a; post_b] = 2.
Proof.
  assert (yields (loop 0 init [post_a; post_b])
            {| sample := [];
               seen_uris := {[uri item_b]} ∪ ({[uri item_a]} ∪ ∅); n := 2 |})
    as Hy by (apply yields_decide; by vm_compute).
  split; [exact Hy |].
  by destruct (nonpositive_capacity 0 _ _ ltac:(lia) Hy) as [_ <-].
Defined.
